(** * PORC (Python Open Room Correction): a shallow embedding of [porc.py]

    The development follows [porc.py] function by function: [rceps] (cepstral
    minimum-phase extraction), [parfilt] (parallel second-order filter bank),
    [norm] (peak normalisation) and the pieces of [roomcomp] that do not touch
    files or plots (the pole grid [plog], the curve-file target [outf] and
    the final [equalizer]).

    Modelling conventions.
    - A one-dimensional numpy array is a [list]; Python integers are [Z]
      ([/] is Python 2 floor division, [mod] is Python's [%]).
    - A Python exception is the [Raise] branch of [result].
    - binary64 samples are exact reals ([R]): rounding is not modelled, so an
      equation proved here holds in the code up to rounding error.  [norm]
      divides by the peak of its input, which is zero for a silent signal,
      so its samples range over [xreal], the reals extended with the IEEE
      special values that such a division produces.
    - numpy and scipy functions ([fft], [ifft], [lfilter], [resample],
      [logspace], [hanning], ...) are defined from the behaviour of the
      library releases the program runs on (it is a Python 2 program of
      2012, written against scipy 0.1x). *)

From Stdlib Require Import Reals Lra Lia ZArith List Bool.
Import ListNotations.
Open Scope R_scope.

(* ================================================================= *)
(** ** Exceptions *)

Inductive exn : Type :=
| ValueError
| IndexError.

Inductive result (A : Type) : Type :=
| Ok (a : A)
| Raise (e : exn).

Arguments Ok {A} a.
Arguments Raise {A} e.

Definition bind {A B : Type} (m : result A) (k : A -> result B) : result B :=
  match m with
  | Ok a => k a
  | Raise e => Raise e
  end.

Notation "x <- m ;; k" := (bind m (fun x => k))
  (at level 61, m at next level, right associativity).

Definition is_ok {A : Type} (m : result A) : Prop :=
  match m with Ok _ => True | Raise _ => False end.

(* ================================================================= *)
(** ** numpy arrays *)

(** [np.ones(k)], [np.zeros(k)]: a negative dimension raises [ValueError]. *)
Definition np_full {A : Type} (v : A) (k : Z) : result (list A) :=
  if (k <? 0)%Z then Raise ValueError else Ok (repeat v (Z.to_nat k)).

Definition np_ones (k : Z) : result (list R) := np_full 1 k.
Definition np_zeros (k : Z) : result (list R) := np_full 0 k.

(** [len(x)] as a Python integer. *)
Definition len {A : Type} (x : list A) : Z := Z.of_nat (length x).

Fixpoint map2 {A B C : Type} (f : A -> B -> C) (a : list A) (b : list B)
  : list C :=
  match a, b with
  | x :: a', y :: b' => f x y :: map2 f a' b'
  | _, _ => []
  end.

(** A binary elementwise operation on two one-dimensional arrays, with
    numpy's broadcasting: equal shapes go pointwise, a shape [(1,)] operand
    is stretched, anything else raises [ValueError]. *)
Definition broadcast {A : Type} (f : A -> A -> A) (d : A) (a b : list A)
  : result (list A) :=
  if (length a =? length b)%nat then Ok (map2 f a b)
  else if (length a =? 1)%nat then Ok (map (f (hd d a)) b)
  else if (length b =? 1)%nat then Ok (map (fun x => f x (hd d b)) a)
  else Raise ValueError.

Definition np_mul : list R -> list R -> result (list R) := broadcast Rmult 0.

(** [y += v]: in-place addition keeps the shape of [y]; [v] must have that
    shape or shape [(1,)]. *)
Definition np_iadd (y v : list R) : result (list R) :=
  if (length v =? length y)%nat then Ok (map2 Rplus y v)
  else if (length v =? 1)%nat then Ok (map (fun a => a + hd 0 v) y)
  else Raise ValueError.

(** Python's normalisation of a slice bound against a length. *)
Definition py_bound (L : nat) (i : Z) : nat :=
  if (i <? 0)%Z then Z.to_nat (Z.max 0 (Z.of_nat L + i))
  else Z.to_nat (Z.min i (Z.of_nat L)).

(** [l[a:b]]; [b = None] is an open end. *)
Definition slice {A : Type} (l : list A) (a : Z) (b : option Z) : list A :=
  let start := py_bound (length l) a in
  let stop := match b with Some b => py_bound (length l) b
                         | None => length l end in
  firstn (stop - start) (skipn start l).

(** [Y[a:b] = V]: the value must have the slice's length or length 1. *)
Definition set_slice {A : Type} (d : A) (Y : list A) (a : Z) (b : option Z)
  (V : list A) : result (list A) :=
  let start := py_bound (length Y) a in
  let stop := match b with Some b => py_bound (length Y) b
                         | None => length Y end in
  let n := (stop - start)%nat in
  if (length V =? n)%nat
  then Ok (firstn start Y ++ V ++ skipn (start + n) Y)
  else if (length V =? 1)%nat
  then Ok (firstn start Y ++ repeat (hd d V) n ++ skipn (start + n) Y)
  else Raise ValueError.

(** A two-dimensional array: its shape and its entries. *)
Record ndarray2 : Type := mk_ndarray2 {
  shape0 : nat;
  shape1 : nat;
  at2 : nat -> nat -> R
}.

(** [A[:,k]]: column [k], [IndexError] when out of range. *)
Definition column (A : ndarray2) (k : nat) : result (list R) :=
  if (k <? shape1 A)%nat
  then Ok (map (fun i => at2 A i k) (seq 0 (shape0 A)))
  else Raise IndexError.

(* ================================================================= *)
(** ** Complex numbers and the discrete Fourier transform *)

Record complex : Type := mkC { re : R; im : R }.

Definition Czero : complex := mkC 0 0.
Definition Cone : complex := mkC 1 0.
Definition Cimag : complex := mkC 0 1.
Definition RtoC (x : R) : complex := mkC x 0.
Definition Cplus (z w : complex) : complex := mkC (re z + re w) (im z + im w).
Definition Cmult (z w : complex) : complex :=
  mkC (re z * re w - im z * im w) (re z * im w + im z * re w).
Definition Cscal (c : R) (z : complex) : complex := mkC (c * re z) (c * im z).
Definition Cconj (z : complex) : complex := mkC (re z) (- im z).
Definition Cmod (z : complex) : R := sqrt (re z * re z + im z * im z).

(** [e^(i t)] and the complex exponential. *)
Definition cis (t : R) : complex := mkC (cos t) (sin t).
Definition Cexp (z : complex) : complex := Cscal (exp (re z)) (cis (im z)).

Fixpoint Csum (f : nat -> complex) (n : nat) : complex :=
  match n with
  | O => Czero
  | S m => Cplus (Csum f m) (f m)
  end.

(** The length-[N] transform with kernel [e^(s 2 pi i k n / N)]. *)
Definition dft_coeff (s : R) (x : list complex) (k : nat) : complex :=
  Csum (fun n => Cmult (nth n x Czero)
                   (cis (s * (2 * PI * INR k * INR n / INR (length x)))))
       (length x).

Definition dft (s : R) (x : list complex) : list complex :=
  map (dft_coeff s x) (seq 0 (length x)).

(** An array of zeros. *)
Definition all_zero (l : list complex) : Prop := Forall (fun z => z = Czero) l.

(** [fft] and [ifft] refuse an empty array. *)
Definition fft (x : list complex) : result (list complex) :=
  match x with
  | [] => Raise ValueError
  | _ => Ok (dft (-1) x)
  end.

Definition ifft (x : list complex) : result (list complex) :=
  match x with
  | [] => Raise ValueError
  | _ => Ok (map (Cscal (/ INR (length x))) (dft 1 x))
  end.

(* ================================================================= *)
(** ** [rceps] *)

(** Line 65: [w = np.hstack((1., 2.*np.ones(n/2-1), np.ones(1-n%2),
    np.zeros(n/2-1)))]. *)
Definition rceps_window (n : Z) : result (list R) :=
  twos <- np_ones (n / 2 - 1) ;;
  ones <- np_ones (1 - n mod 2) ;;
  zeros <- np_zeros (n / 2 - 1) ;;
  Ok (1 :: map (Rmult 2) twos ++ ones ++ zeros).

(** The cepstrum [y] of line 63.  [ln] stands for [sp.log]; a spectrum bin
    of magnitude zero gives [-inf] in the code and has no counterpart in
    [R], so values are exact only for spectra without a zero bin. *)
Definition rceps_y (x : list R) : result (list R) :=
  X <- fft (map RtoC x) ;;
  c <- ifft (map (fun z => RtoC (ln (Cmod z))) X) ;;
  Ok (map re c).

(** Line 66 for a given window. *)
Definition rceps_ym (w y : list R) : result (list R) :=
  wy <- np_mul w y ;;
  F <- fft (map RtoC wy) ;;
  m <- ifft (map Cexp F) ;;
  Ok (map re m).

Definition rceps (x : list R) : result (list R * list R) :=
  y <- rceps_y x ;;
  w <- rceps_window (len x) ;;
  ym <- rceps_ym w y ;;
  Ok (y, ym).

(** The window as the specification words it: [w[0]=1], [w[1..n/2-1]=2],
    [w[n/2] = 1 if n odd else 0], [w[n/2+1..]=0], of length [n]. *)
Definition spec_window (n : Z) : list R :=
  map (fun i : nat =>
         let i := Z.of_nat i in
         if (i =? 0)%Z then 1
         else if (i <? n / 2)%Z then 2
         else if (i =? n / 2)%Z then (if Z.odd n then 1 else 0)
         else 0)
      (seq 0 (Z.to_nat n)).

(* ================================================================= *)
(** ** [norm] *)

(** The values a binary64 sample can take, rounding apart.  A real zero
    stands for [+0.0]: the only divisor [norm] uses is a maximum of absolute
    values, which is never [-0.0]. *)
Inductive xreal : Type :=
| Fin (r : R)
| PInf
| NInf
| NaN.

(** [np.fabs]. *)
Definition xabs (v : xreal) : xreal :=
  match v with
  | Fin r => Fin (Rabs r)
  | PInf | NInf => PInf
  | NaN => NaN
  end.

(** The maximum of two values as [ndarray.max] takes it: NaN propagates. *)
Definition xmax (a b : xreal) : xreal :=
  match a, b with
  | NaN, _ | _, NaN => NaN
  | PInf, _ | _, PInf => PInf
  | NInf, v | v, NInf => v
  | Fin x, Fin y => Fin (Rmax x y)
  end.

(** IEEE division; the warning numpy issues on a zero divisor is not an
    exception (and line 58 silences it). *)
Definition xdiv (a b : xreal) : xreal :=
  match a, b with
  | NaN, _ | _, NaN => NaN
  | Fin x, Fin y =>
      if Req_dec_T y 0
      then (if Req_dec_T x 0 then NaN
            else if Rlt_dec 0 x then PInf else NInf)
      else Fin (x / y)
  | Fin _, (PInf | NInf) => Fin 0
  | (PInf | NInf), (PInf | NInf) => NaN
  | PInf, Fin y => if Rle_dec 0 y then PInf else NInf
  | NInf, Fin y => if Rle_dec 0 y then NInf else PInf
  end.

(** [a.max()]: [ValueError] on an empty array. *)
Definition np_max (l : list xreal) : result xreal :=
  match l with
  | [] => Raise ValueError
  | a :: t => Ok (fold_left xmax t a)
  end.

(** Line 76: [def norm(y): return y/np.fabs(y, dtype = np.float64).max()]. *)
Definition norm (y : list xreal) : result (list xreal) :=
  m <- np_max (map xabs y) ;;
  Ok (map (fun v => xdiv v m) y).

(** A real signal as an array of samples. *)
Definition real_signal (x : list R) : list xreal := map Fin x.

(** The maximum absolute value of a real signal (0 for the empty one). *)
Definition maxabs (x : list R) : R :=
  match map Rabs x with
  | [] => 0
  | a :: t => fold_left Rmax t a
  end.

(* ================================================================= *)
(** ** [parfilt] *)

(** Sum of the products of two sequences, up to the shorter one. *)
Fixpoint dot (c h : list R) : R :=
  match c, h with
  | ci :: c', hi :: h' => ci * hi + dot c' h'
  | _, _ => 0
  end.

(** The recursion of [scipy.signal.lfilter]:
    [a0*y[n] = b[0]*x[n] + ... + b[M]*x[n-M] - a[1]*y[n-1] - ... - a[N]*y[n-N]],
    with the past inputs [xh] and outputs [yh] most recent first and zero
    initial conditions. *)
Fixpoint lfilter_loop (b : list R) (a0 : R) (a' : list R) (xh yh x : list R)
  : list R :=
  match x with
  | [] => []
  | xn :: xs =>
      let yn := (dot b (xn :: xh) - dot a' yh) / a0 in
      yn :: lfilter_loop b a0 a' (xn :: xh) (yn :: yh) xs
  end.

(** [sig.lfilter(b, a, x)]: a denominator without a non-zero leading
    coefficient raises [ValueError]. *)
Definition lfilter (b a x : list R) : result (list R) :=
  match a with
  | [] => Raise ValueError
  | a0 :: a' =>
      if Req_dec_T a0 0 then Raise ValueError
      else Ok (lfilter_loop b a0 a' [] [] x)
  end.

(** The loop of lines 71-72 over the column indices [ks]. *)
Fixpoint parfilt_sections (Bm Am : ndarray2) (x : list R) (ks : list nat)
  (y : list R) : result (list R) :=
  match ks with
  | [] => Ok y
  | k :: ks' =>
      b <- column Bm k ;;
      a <- column Am k ;;
      f <- lfilter b a x ;;
      y' <- np_iadd y f ;;
      parfilt_sections Bm Am x ks' y'
  end.

(** Lines 69-74. *)
Definition parfilt (Bm Am : ndarray2) (FIR x : list R) : result (list R) :=
  y <- parfilt_sections Bm Am x (seq 0 (shape1 Am)) (repeat 0 (length x)) ;;
  f <- lfilter FIR [1] x ;;
  np_iadd y f.

(** [x1 + x2] for arrays of one shape. *)
Definition np_add (x1 x2 : list R) : list R := map2 Rplus x1 x2.

(** A coefficient set: [Bm] has a numerator column for every denominator
    column of [Am], and every denominator has a leading coefficient
    [a[0] <> 0] (the sets [parfiltid] identifies have three rows, as many
    columns in [Bm] as in [Am], and [a[0] = 1]). *)
Definition coefficient_set (Bm Am : ndarray2) : Prop :=
  (shape1 Am <= shape1 Bm)%nat /\
  (0 < shape0 Am)%nat /\
  forall k, (k < shape1 Am)%nat -> at2 Am 0 k <> 0.

(* ================================================================= *)
(** ** The pole grid of [roomcomp] (lines 89-96) *)

(** [R = 0.5] in the source; [R] names the reals here. *)
Definition Rpole : R := 0.5.

Definition log10 (x : R) : R := ln x / ln 10.

(** [sp.logspace(start, stop, num)]: [10 ** linspace(start, stop, num)]. *)
Definition logspace (start stop : R) (num : nat) : list R :=
  map (fun i => Rpower 10 (start + INR i * ((stop - start) / INR (num - 1))))
      (seq 0 num).

Definition fplog : list R :=
  logspace (log10 30) (log10 200) 13 ++ logspace (log10 250) (log10 18000) 12.

(** [wp = 2 * sp.pi * fplog / Fs]. *)
Definition wp (Fs : Z) : list R :=
  map (fun f => 2 * PI * f / IZR Fs) fplog.

(** [p = np.power(R, wp/sp.pi) * np.exp(1j*wp)]. *)
Definition pole (w : R) : complex :=
  Cscal (Rpower Rpole (w / PI)) (Cexp (Cmult Cimag (RtoC w))).

Definition p (Fs : Z) : list complex := map pole (wp Fs).

(** [plog = np.hstack((p, np.conj(p)))]. *)
Definition plog (Fs : Z) : list complex := p Fs ++ map Cconj (p Fs).

(* ================================================================= *)
(** ** [scipy.signal.resample] *)

Inductive window_name : Type := Hanning.

(** [scipy.signal.hanning(M, sym)]. *)
Definition hanning (M : nat) (sym : bool) : list R :=
  match M with
  | O => []
  | 1%nat => [1]
  | _ =>
      let ext := negb sym && Nat.even M in
      let M' := if ext then S M else M in
      let w := map (fun n => 0.5 - 0.5 * cos (2 * PI * INR n / INR (M' - 1)))
                   (seq 0 M') in
      if ext then removelast w else w
  end.

(** [get_window(name, Nx)], with its default [fftbins=True]. *)
Definition get_window (name : window_name) (Nx : nat) : list R :=
  match name with Hanning => hanning Nx false end.

Definition ifftshift {A : Type} (x : list A) : list A :=
  skipn (length x / 2) x ++ firstn (length x / 2) x.

(** [X * W] with [W = ifftshift(get_window(window, Nx))], when a window is
    given. *)
Definition windowed (X : list complex) (Nx : nat) (window : option window_name)
  : list complex :=
  match window with
  | None => X
  | Some name => map2 (fun z w => Cscal w z) X (ifftshift (get_window name Nx))
  end.

(** [resample(x, num, window=...)] for a complex one-dimensional [x]. *)
Definition resample (x : list complex) (num : Z) (window : option window_name)
  : result (list complex) :=
  X <- fft x ;;
  let Nx := len x in
  let X := windowed X (length x) window in
  let N := Z.min num Nx in
  Y <- np_full Czero num ;;
  Y <- set_slice Czero Y 0 (Some ((N + 1) / 2))%Z
         (slice X 0 (Some ((N + 1) / 2))%Z) ;;
  Y <- set_slice Czero Y (- (N - 1) / 2)%Z None
         (slice X (- (N - 1) / 2)%Z None) ;;
  y <- ifft Y ;;
  Ok (map (Cscal (IZR num / IZR Nx)) y).

(* ================================================================= *)
(** ** The curve-file target and the equalizer of [roomcomp] *)

(** Lines 116-117 after [np.loadtxt]:
    [outf = sp.fft(sig.resample(sp.ifft(t[:,1]), len(minresp)))]. *)
Definition outf (t : ndarray2) (minresp_len : Z) : result (list complex) :=
  c <- column t 1 ;;
  i <- ifft (map RtoC c) ;;
  r <- resample i minresp_len None ;;
  fft r.

(** The target file with the two rows [[0, 1.0], [1, 1.0]]. *)
Definition two_row_target : ndarray2 :=
  mk_ndarray2 2 2 (fun i j => match j with O => INR i | _ => 1 end).

(** Lines 137-138:
    [equalizer = sig.resample(equalizer, ntaps, window='hanning')],
    [equalizer = norm(np.real(sp.ifft(equalizer)))]. *)
Definition equalizer_taps (spectrum : list complex) (ntaps : Z)
  : result (list R) :=
  e <- resample spectrum ntaps (Some Hanning) ;;
  t <- ifft e ;;
  Ok (map re t).

Definition equalizer (spectrum : list complex) (ntaps : Z)
  : result (list xreal) :=
  t <- equalizer_taps spectrum ntaps ;;
  norm (real_signal t).

(* ================================================================= *)
(** ** Further lines of [roomcomp] *)

(** [a[0] = v]: [IndexError] on an empty array. *)
Definition set_item0 (v : R) (a : list R) : result (list R) :=
  match a with
  | [] => Raise IndexError
  | _ :: t => Ok (v :: t)
  end.

(** Lines 119-120 (and 104-106): [imp = np.zeros(n)], [imp[0] = 1.0]. *)
Definition unit_pulse (n : nat) : result (list R) :=
  set_item0 1 (repeat 0 n).

(** Line 131: [equalizedresp = norm(parfilt(Bm, Am, FIR, data))]. *)
Definition equalizedresp (Bm Am : ndarray2) (FIR data : list R)
  : result (list xreal) :=
  y <- parfilt Bm Am FIR data ;;
  norm (real_signal y).

(* ================================================================= *)
(** ** Notions the properties are stated with *)

Fixpoint Rsum (f : nat -> R) (n : nat) : R :=
  match n with
  | O => 0
  | S m => Rsum f m + f m
  end.

(** Sample [i] of the convolution of [h] and [x]:
    [h[0] x[i] + h[1] x[i-1] + ... + h[i] x[0]]. *)
Definition convolve (h x : list R) (i : nat) : R :=
  Rsum (fun j => nth j h 0 * nth (i - j) x 0) (S i).

(** Column [k] of an array, for [k] in range. *)
Definition col (A : ndarray2) (k : nat) : list R :=
  map (fun i => at2 A i k) (seq 0 (shape0 A)).

(** The output of section [k] of a coefficient set. *)
Definition section_out (Bm Am : ndarray2) (k : nat) (x : list R) : list R :=
  lfilter_loop (col Bm k) (at2 Am 0 k) (tl (col Am k)) [] [] x.

(** The sum [parfilt] accumulates: the sections in turn, then the direct
    path. *)
Definition parfilt_sum (Bm Am : ndarray2) (FIR x : list R) : list R :=
  np_add (fold_left (fun acc k => np_add acc (section_out Bm Am k x))
                    (seq 0 (shape1 Am)) (repeat 0 (length x)))
         (lfilter_loop FIR 1 [] [] [] x).

(** Bin [-k] of a transform of [n] bins: bin 0 for [k = 0], bin [n - k]
    otherwise. *)
Definition mirror (n k : nat) : nat :=
  if (k =? 0)%nat then 0%nat else (n - k)%nat.

(** A spectrum with [X[-k] = conj(X[k])], as the transform of a real
    signal has it. *)
Definition hermitian (X : list complex) : Prop :=
  forall k, (k < length X)%nat ->
            nth (mirror (length X) k) X Czero = Cconj (nth k X Czero).

(** A complex array without imaginary parts. *)
Definition real_valued (X : list complex) : Prop :=
  Forall (fun z => im z = 0) X.

(* ================================================================= *)
(** * Properties *)

Ltac Zify.zify_post_hook ::= Z.div_mod_to_equations.

(** ** The [result] monad *)

Lemma bind_ok {A B : Type} (m : result A) (k : A -> result B) (a : A) :
  m = Ok a -> bind m k = k a.
Proof. intros ->. reflexivity. Qed.

Lemma bind_raise {A B : Type} (m : result A) (k : A -> result B) (e : exn) :
  m = Raise e -> bind m k = Raise e.
Proof. intros ->. reflexivity. Qed.

(** ** Lists *)

Lemma nth_repeat_lt {A : Type} (a d : A) (m i : nat) :
  (i < m)%nat -> nth i (repeat a m) d = a.
Proof.
  revert i. induction m as [|m IH]; intros i Hi; [lia|].
  destruct i as [|i]; simpl; [reflexivity|]. apply IH. lia.
Qed.

Lemma map_Rmult_2_ones (k : nat) : map (Rmult 2) (repeat 1 k) = repeat 2 k.
Proof.
  induction k as [|k IH]; simpl; [reflexivity|].
  rewrite IH. f_equal. lra.
Qed.

Lemma map2_length {A B C : Type} (f : A -> B -> C) (a : list A) (b : list B) :
  length a = length b -> length (map2 f a b) = length a.
Proof.
  revert b. induction a as [|x a IH]; intros [|y b] H; simpl in *;
    try reflexivity; try discriminate.
  f_equal. apply IH. lia.
Qed.

(** ** The transforms keep the length *)

Lemma dft_length (s : R) (x : list complex) : length (dft s x) = length x.
Proof. unfold dft. now rewrite length_map, length_seq. Qed.

Lemma fft_ok (x : list complex) :
  x <> [] -> fft x = Ok (dft (-1) x).
Proof. destruct x; [congruence|reflexivity]. Qed.

Lemma ifft_ok (x : list complex) :
  x <> [] -> ifft x = Ok (map (Cscal (/ INR (length x))) (dft 1 x)).
Proof. destruct x; [congruence|reflexivity]. Qed.

Lemma nonempty_length {A : Type} (x : list A) : (0 < length x)%nat -> x <> [].
Proof. destruct x; simpl; [lia|congruence]. Qed.

Lemma fft_total (x : list complex) :
  (0 < length x)%nat ->
  exists X, fft x = Ok X /\ length X = length x.
Proof.
  intros H. exists (dft (-1) x). split.
  - apply fft_ok, nonempty_length, H.
  - apply dft_length.
Qed.

Lemma ifft_total (x : list complex) :
  (0 < length x)%nat ->
  exists y, ifft x = Ok y /\ length y = length x.
Proof.
  intros H. eexists. split.
  - apply ifft_ok, nonempty_length, H.
  - now rewrite length_map, dft_length.
Qed.

(** ** [rceps]: the window and the product *)

Lemma rceps_y_total (x : list R) :
  (0 < length x)%nat ->
  exists y, rceps_y x = Ok y /\ length y = length x.
Proof.
  intros H. unfold rceps_y.
  destruct (fft_total (map RtoC x)) as (X & -> & HX);
    [now rewrite length_map|].
  rewrite length_map in HX. simpl.
  destruct (ifft_total (map (fun z => RtoC (ln (Cmod z))) X)) as (c & -> & Hc);
    [rewrite length_map; lia|].
  rewrite length_map in Hc. simpl.
  eexists. split; [reflexivity|]. rewrite length_map. lia.
Qed.

Lemma rceps_ym_of_product (w y wy : list R) :
  np_mul w y = Ok wy -> (0 < length wy)%nat ->
  exists ym, rceps_ym w y = Ok ym /\ length ym = length wy.
Proof.
  intros Hmul Hwy. unfold rceps_ym. rewrite Hmul. simpl.
  destruct (fft_total (map RtoC wy)) as (F & -> & HF);
    [now rewrite length_map|].
  rewrite length_map in HF. simpl.
  destruct (ifft_total (map Cexp F)) as (m & -> & Hm);
    [rewrite length_map; lia|].
  rewrite length_map in Hm. simpl.
  eexists. split; [reflexivity|]. rewrite length_map. lia.
Qed.

Lemma np_mul_same_length (w y : list R) :
  length w = length y -> np_mul w y = Ok (map2 Rmult w y).
Proof. intros H. unfold np_mul, broadcast. now rewrite H, Nat.eqb_refl. Qed.

Lemma rceps_ym_total (w y : list R) :
  length w = length y -> (0 < length y)%nat ->
  exists ym, rceps_ym w y = Ok ym /\ length ym = length y.
Proof.
  intros Hw Hy.
  destruct (rceps_ym_of_product w y _ (np_mul_same_length w y Hw))
    as (ym & E & L); [rewrite map2_length; lia|].
  exists ym. split; [exact E|]. rewrite L, map2_length; lia.
Qed.

(** A product of arrays of different lengths, neither of length 1, raises. *)
Lemma np_mul_mismatch (w y : list R) :
  length w <> length y -> length w <> 1%nat -> length y <> 1%nat ->
  np_mul w y = Raise ValueError.
Proof.
  intros H1 H2 H3. unfold np_mul, broadcast.
  apply Nat.eqb_neq in H1, H2, H3. now rewrite H1, H2, H3.
Qed.

(** The window for an even length [2(h+1)]. *)
Lemma rceps_window_even_eq (h : nat) :
  rceps_window (2 * (Z.of_nat h + 1)) =
  Ok (1 :: repeat 2 h ++ 1 :: repeat 0 h).
Proof.
  unfold rceps_window, np_ones, np_zeros, np_full.
  replace (2 * (Z.of_nat h + 1) / 2 - 1)%Z with (Z.of_nat h) by lia.
  replace (1 - (2 * (Z.of_nat h + 1)) mod 2)%Z with 1%Z by lia.
  destruct (Z.ltb_spec (Z.of_nat h) 0) as [Hlt|_]; [lia|].
  rewrite Nat2Z.id. simpl. now rewrite map_Rmult_2_ones.
Qed.

(** The window for an odd length [2h+3]: the middle tap is missing and both
    runs are one element short. *)
Lemma rceps_window_odd_eq (h : nat) :
  rceps_window (2 * Z.of_nat h + 3) = Ok (1 :: repeat 2 h ++ repeat 0 h).
Proof.
  unfold rceps_window, np_ones, np_zeros, np_full.
  replace ((2 * Z.of_nat h + 3) / 2 - 1)%Z with (Z.of_nat h) by lia.
  replace (1 - (2 * Z.of_nat h + 3) mod 2)%Z with 0%Z by lia.
  destruct (Z.ltb_spec (Z.of_nat h) 0) as [Hlt|_]; [lia|].
  rewrite Nat2Z.id. simpl. now rewrite map_Rmult_2_ones.
Qed.

Example rceps_window_2 : rceps_window 2 = Ok [1; 1].
Proof. exact (rceps_window_even_eq 0). Qed.

Example rceps_window_6 : rceps_window 6 = Ok [1; 2; 2; 1; 0; 0].
Proof. exact (rceps_window_even_eq 2). Qed.

Example rceps_window_5 : rceps_window 5 = Ok [1; 2; 0].
Proof. exact (rceps_window_odd_eq 1). Qed.

Example rceps_window_1 : rceps_window 1 = Raise ValueError.
Proof. reflexivity. Qed.

Example np_mul_5 :
  np_mul [1; 2; 0] [1; 1; 1; 1; 1] = Raise ValueError.
Proof. reflexivity. Qed.

Lemma even_length_split {A : Type} (x : list A) :
  Z.even (len x) = true -> (2 <= len x)%Z ->
  exists h : nat, len x = (2 * (Z.of_nat h + 1))%Z /\ length x = (2 * h + 2)%nat.
Proof.
  unfold len. intros He Hn. apply Z.even_spec in He. destruct He as [m Hm].
  exists (Z.to_nat (m - 1)). split; lia.
Qed.

Lemma odd_length_split {A : Type} (x : list A) :
  Z.odd (len x) = true -> (3 <= len x)%Z ->
  exists h : nat, len x = (2 * Z.of_nat h + 3)%Z /\ length x = (2 * h + 3)%nat.
Proof.
  unfold len. intros Ho Hn. apply Z.odd_spec in Ho. destruct Ho as [m Hm].
  exists (Z.to_nat (m - 1)). split; lia.
Qed.

Lemma even_window_length (h : nat) :
  length (1 :: repeat 2 h ++ 1 :: repeat 0 h) = (2 * h + 2)%nat.
Proof. simpl. rewrite length_app. simpl. rewrite !repeat_length. lia. Qed.

Lemma even_window_twos (h i : nat) :
  (1 <= i <= h)%nat -> nth i (1 :: repeat 2 h ++ 1 :: repeat 0 h) 0 = 2.
Proof.
  intros Hi. destruct i as [|i]; [lia|]. simpl.
  rewrite app_nth1 by (rewrite repeat_length; lia).
  apply nth_repeat_lt. lia.
Qed.

Lemma even_window_centre (h : nat) :
  nth (h + 1) (1 :: repeat 2 h ++ 1 :: repeat 0 h) 0 = 1.
Proof.
  rewrite Nat.add_1_r. simpl.
  rewrite app_nth2 by (rewrite repeat_length; lia).
  now rewrite repeat_length, Nat.sub_diag.
Qed.

Lemma even_window_zeros (h i : nat) :
  (h + 1 < i)%nat -> nth i (1 :: repeat 2 h ++ 1 :: repeat 0 h) 0 = 0.
Proof.
  intros Hi. destruct i as [|i]; [lia|]. simpl.
  rewrite app_nth2 by (rewrite repeat_length; lia).
  rewrite repeat_length.
  destruct (i - h)%nat as [|j] eqn:E; [lia|]. simpl.
  apply nth_repeat.
Qed.

(** With a window of the input's length [rceps] returns. *)
Lemma rceps_total_of_window (x w : list R) :
  (0 < length x)%nat -> rceps_window (len x) = Ok w -> length w = length x ->
  is_ok (rceps x).
Proof.
  intros Hx Hw Hl. unfold rceps.
  destruct (rceps_y_total x Hx) as (y & -> & Hy). simpl.
  rewrite Hw. simpl.
  destruct (rceps_ym_total w y) as (ym & -> & _); [lia|lia|]. exact I.
Qed.

(** With a window whose length is neither 1 nor the input's, [rceps]
    raises at the product [w*y]. *)
Lemma rceps_raises_of_window (x w : list R) :
  (1 < length x)%nat -> rceps_window (len x) = Ok w ->
  length w <> length x -> length w <> 1%nat ->
  rceps x = Raise ValueError.
Proof.
  intros Hx Hw Hl H1. unfold rceps.
  destruct (rceps_y_total x) as (y & -> & Hy); [lia|]. simpl.
  rewrite Hw. simpl. unfold rceps_ym.
  rewrite np_mul_mismatch; [reflexivity|lia|exact H1|lia].
Qed.

(** C1 (as amended): for every real input of even length [n >= 2], [rceps]
    multiplies the cepstrum by a window [w] of length [n] with [w[0] = 1],
    [w[i] = 2] for [1 <= i < n/2], [w[n/2] = 1] and [w[i] = 0] for
    [n/2 < i < n]. *)
Theorem rceps_window_even (x : list R) :
  Z.even (len x) = true -> (2 <= len x)%Z ->
  exists w : list R,
    rceps_window (len x) = Ok w /\
    rceps x = (y <- rceps_y x ;; ym <- rceps_ym w y ;; Ok (y, ym)) /\
    length w = length x /\
    nth 0 w 0 = 1 /\
    (forall i, (1 <= i < length x / 2)%nat -> nth i w 0 = 2) /\
    nth (length x / 2) w 0 = 1 /\
    (forall i, (length x / 2 < i < length x)%nat -> nth i w 0 = 0).
Proof.
  intros He Hn. destruct (even_length_split x He Hn) as (h & Hz & Hl).
  exists (1 :: repeat 2 h ++ 1 :: repeat 0 h).
  assert (Hw := rceps_window_even_eq h). rewrite <- Hz in Hw.
  assert (Hhalf : (length x / 2 = h + 1)%nat).
  { rewrite Hl. replace (2 * h + 2)%nat with ((h + 1) * 2)%nat by lia.
    apply Nat.div_mul. lia. }
  rewrite Hhalf. repeat split.
  - exact Hw.
  - unfold rceps. now rewrite Hw.
  - now rewrite even_window_length.
  - intros i Hi. apply even_window_twos. lia.
  - apply even_window_centre.
  - intros i Hi. apply even_window_zeros. lia.
Qed.

Lemma rceps_window_even_witness :
  exists w : list R,
    rceps_window (len [1; 0; 0; 0]) = Ok w /\
    rceps [1; 0; 0; 0] = (y <- rceps_y [1; 0; 0; 0] ;;
                          ym <- rceps_ym w y ;; Ok (y, ym)) /\
    length w = 4%nat /\
    nth 0 w 0 = 1 /\
    (forall i, (1 <= i < 4 / 2)%nat -> nth i w 0 = 2) /\
    nth (4 / 2) w 0 = 1 /\
    (forall i, (4 / 2 < i < 4)%nat -> nth i w 0 = 0).
Proof.
  apply (rceps_window_even [1; 0; 0; 0]); [reflexivity | unfold len; simpl; lia].
Defined.

(** C1, the claim as worded fails on an input of length 4.  Line 65 with
    [n = 4]: [n/2-1 = 1] and [1-n%2 = 1], so
    [w = hstack((1., 2.*ones(1), ones(1), zeros(1))) = [1, 2, 1, 0]]: the
    centre tap [w[2]] is 1, where the worded window [spec_window] has 0 for
    an even length. *)
Lemma rceps_window_centre_tap_counterexample :
  rceps_window (len [1; 0; 0; 0]) = Ok [1; 2; 1; 0] /\
  spec_window (len [1; 0; 0; 0]) = [1; 2; 0; 0] /\
  rceps_window (len [1; 0; 0; 0]) <> Ok (spec_window (len [1; 0; 0; 0])).
Proof.
  assert (Hw : rceps_window (len [1; 0; 0; 0]) = Ok [1; 2; 1; 0]).
  { exact (rceps_window_even_eq 1). }
  assert (Hs : spec_window (len [1; 0; 0; 0]) = [1; 2; 0; 0]) by reflexivity.
  split; [exact Hw | split; [exact Hs|]].
  rewrite Hw, Hs. intros E. injection E as E. lra.
Qed.

(** A window of length 1 is stretched over the cepstrum. *)
Lemma np_mul_unit (w y : list R) :
  length w = 1%nat ->
  exists wy, np_mul w y = Ok wy /\ length wy = length y.
Proof.
  intros Hw. unfold np_mul, broadcast. rewrite Hw.
  destruct (Nat.eqb_spec 1 (length y)) as [E|_].
  - eexists. split; [reflexivity|]. rewrite map2_length; lia.
  - simpl. eexists. split; [reflexivity|]. now rewrite length_map.
Qed.

Lemma rceps_total_of_unit_window (x w : list R) :
  (0 < length x)%nat -> rceps_window (len x) = Ok w -> length w = 1%nat ->
  is_ok (rceps x).
Proof.
  intros Hx Hw Hl. unfold rceps.
  destruct (rceps_y_total x Hx) as (y & Ey & Hy).
  rewrite (bind_ok _ _ _ Ey), (bind_ok _ _ _ Hw).
  destruct (np_mul_unit w y Hl) as (wy & Em & Lwy).
  destruct (rceps_ym_of_product w y wy Em) as (ym & E & _); [lia|].
  rewrite (bind_ok _ _ _ E). exact I.
Qed.

Lemma rceps_raises_short (x : list R) :
  (len x <= 1)%Z -> rceps x = Raise ValueError.
Proof.
  intros H. destruct x as [|a [|b x]].
  - reflexivity.
  - unfold rceps.
    destruct (rceps_y_total [a]) as (y & Ey & _); [simpl; lia|].
    rewrite (bind_ok _ _ _ Ey). reflexivity.
  - unfold len in H. simpl length in H. lia.
Qed.

(** C9 (as amended): [rceps] returns exactly on the inputs of even length
    [n >= 2] and of length 3.  An even [n >= 2] gives a window of length
    [n]; an odd [n >= 3] gives a window of length [n - 2], which for
    [n = 3] has length 1 and is stretched over the cepstrum, and from
    [n = 5] on the product of the window with the cepstrum raises. *)
Theorem rceps_parity (x : list R) :
  (is_ok (rceps x) <->
   (Z.even (len x) = true /\ (2 <= len x)%Z) \/ len x = 3%Z) /\
  (Z.even (len x) = true -> (2 <= len x)%Z ->
   exists w, rceps_window (len x) = Ok w /\ length w = length x) /\
  (Z.odd (len x) = true -> (3 <= len x)%Z ->
   exists w, rceps_window (len x) = Ok w /\ len w = (len x - 2)%Z /\
             ((5 <= len x)%Z -> rceps x = Raise ValueError)).
Proof.
  assert (Even : Z.even (len x) = true -> (2 <= len x)%Z ->
                 exists w, rceps_window (len x) = Ok w /\ length w = length x).
  { intros He Hn. destruct (even_length_split x He Hn) as (h & Hz & Hl).
    assert (Hw := rceps_window_even_eq h). rewrite <- Hz in Hw.
    eexists. split; [exact Hw|]. rewrite even_window_length. lia. }
  assert (Odd : Z.odd (len x) = true -> (3 <= len x)%Z ->
                exists w, rceps_window (len x) = Ok w /\
                          len w = (len x - 2)%Z /\
                          ((5 <= len x)%Z -> rceps x = Raise ValueError)).
  { intros Ho H3. destruct (odd_length_split x Ho H3) as (h & Hz & Hl).
    assert (Hw := rceps_window_odd_eq h). rewrite <- Hz in Hw.
    assert (L : length (1 :: repeat 2 h ++ repeat 0 h) = (2 * h + 1)%nat).
    { simpl. rewrite length_app, !repeat_length. lia. }
    eexists. split; [exact Hw|]. split.
    - unfold len. rewrite L. unfold len in Hz. lia.
    - intros H5. unfold len in H5.
      eapply rceps_raises_of_window; [lia | exact Hw | rewrite L; lia ..]. }
  split; [|split; assumption]. split.
  - intros Hok.
    destruct (Z.le_gt_cases (len x) 1) as [H1|H2].
    { rewrite (rceps_raises_short x H1) in Hok. contradiction. }
    destruct (Z.even (len x)) eqn:He; [left; split; [reflexivity|lia]|].
    right. assert (Ho : Z.odd (len x) = true)
      by (rewrite <- Z.negb_even, He; reflexivity).
    destruct (Z.le_gt_cases 5 (len x)) as [H5|H4].
    { destruct (Odd Ho ltac:(lia)) as (w & _ & _ & Hr).
      rewrite (Hr H5) in Hok. contradiction. }
    destruct (Z.eq_dec (len x) 4) as [E|E]; [rewrite E in He; discriminate|].
    destruct (Z.eq_dec (len x) 2) as [E2|E2]; [rewrite E2 in He; discriminate|].
    lia.
  - intros [[He Hn] | E3].
    + destruct (Even He Hn) as (w & Hw & L).
      eapply rceps_total_of_window; [unfold len in Hn; lia | exact Hw | exact L].
    + assert (Ho : Z.odd (len x) = true) by (rewrite E3; reflexivity).
      destruct (Odd Ho ltac:(lia)) as (w & Hw & L & _).
      eapply rceps_total_of_unit_window; [unfold len in E3; lia | exact Hw |].
      unfold len in *. lia.
Qed.

(** C9, the claim as worded fails at both ends.  Line 65 with [n = 3]:
    [n/2-1 = 0] and [1-n%2 = 0], so [w = hstack((1., [], [], [])) = [1.]],
    of length 1, which numpy stretches over the cepstrum: the product
    [w*y] is defined and [rceps] returns.  And for the even length 0
    [rceps] raises, at [sp.fft] of the empty array in line 63. *)
Lemma rceps_length_three_counterexample :
  (rceps_window (len [1; 2; 3]) = Ok [1] /\
   (forall y, length y = 3%nat -> np_mul [1] y = Ok (map (Rmult 1) y)) /\
   is_ok (rceps [1; 2; 3])) /\
  (Z.even (len (@nil R)) = true /\ rceps [] = Raise ValueError).
Proof.
  assert (Hw : rceps_window (len [1; 2; 3]) = Ok [1])
    by exact (rceps_window_odd_eq 0).
  assert (Hm : forall y, length y = 3%nat ->
                         np_mul [1] y = Ok (map (Rmult 1) y)).
  { intros y Hy. unfold np_mul, broadcast. rewrite Hy. reflexivity. }
  split; [split; [exact Hw | split; [exact Hm|]] | split; reflexivity].
  eapply rceps_total_of_unit_window; [simpl; lia | exact Hw | reflexivity].
Qed.

(* ================================================================= *)
(** ** [norm] *)

Lemma fold_xmax_Fin (l : list R) (a : R) :
  fold_left xmax (map Fin l) (Fin a) = Fin (fold_left Rmax l a).
Proof.
  revert a. induction l as [|b l IH]; intros a; simpl; [reflexivity|].
  apply IH.
Qed.

Lemma fold_Rmax_ge_init (l : list R) (a : R) : a <= fold_left Rmax l a.
Proof.
  revert a. induction l as [|b l IH]; intros a; simpl; [lra|].
  eapply Rle_trans; [apply (Rmax_l a b) | apply IH].
Qed.

Lemma fold_Rmax_ge (l : list R) (a : R) :
  Forall (fun v => v <= fold_left Rmax l a) l.
Proof.
  revert a. induction l as [|b l IH]; intros a; simpl; constructor.
  - eapply Rle_trans; [apply (Rmax_r a b) | apply fold_Rmax_ge_init].
  - apply IH.
Qed.

Lemma fold_Rmax_In (l : list R) (a : R) : In (fold_left Rmax l a) (a :: l).
Proof.
  revert a. induction l as [|b l IH]; intros a; simpl; [now left|].
  destruct (IH (Rmax a b)) as [E|H].
  - unfold Rmax in E at 1. destruct (Rle_dec a b); [right; left|left]; exact E.
  - right. right. exact H.
Qed.

Lemma np_max_real (x : list R) :
  x <> [] -> np_max (map xabs (real_signal x)) = Ok (Fin (maxabs x)).
Proof.
  destruct x as [|a t]; [congruence|]. intros _.
  unfold maxabs, real_signal. simpl.
  rewrite map_map.
  replace (map (fun v => xabs (Fin v)) t) with (map Fin (map Rabs t))
    by (rewrite map_map; reflexivity).
  now rewrite fold_xmax_Fin.
Qed.

Lemma maxabs_In (x : list R) : x <> [] -> In (maxabs x) (map Rabs x).
Proof.
  destruct x as [|a t]; [congruence|]. intros _.
  unfold maxabs. simpl map. apply fold_Rmax_In.
Qed.

Lemma maxabs_ge (x : list R) : Forall (fun v => Rabs v <= maxabs x) x.
Proof.
  destruct x as [|a t]; [constructor|].
  unfold maxabs. simpl map. constructor.
  - apply fold_Rmax_ge_init.
  - apply Forall_map with (f := Rabs) (P := fun v => v <= fold_left Rmax (map Rabs t) (Rabs a)).
    apply fold_Rmax_ge.
Qed.

Lemma maxabs_nonneg (x : list R) : 0 <= maxabs x.
Proof.
  destruct x as [|a t]; [unfold maxabs; simpl; lra|].
  assert (H := maxabs_ge (a :: t)). inversion H as [|? ? Ha _]; subst.
  eapply Rle_trans; [apply Rabs_pos | exact Ha].
Qed.

Lemma maxabs_pos (x : list R) : Exists (fun v => v <> 0) x -> 0 < maxabs x.
Proof.
  intros H. apply Exists_exists in H. destruct H as (v & Hin & Hv).
  assert (Hge := maxabs_ge x). rewrite Forall_forall in Hge.
  specialize (Hge v Hin).
  assert (0 < Rabs v) by (apply Rabs_pos_lt; exact Hv). lra.
Qed.

Lemma maxabs_zero (x : list R) : Forall (fun v => v = 0) x -> maxabs x = 0.
Proof.
  intros H. destruct x as [|a t]; [reflexivity|].
  assert (Hin := maxabs_In (a :: t) ltac:(congruence)).
  apply in_map_iff in Hin. destruct Hin as (v & Hv & Hin).
  rewrite Forall_forall in H. rewrite <- Hv, (H v Hin). apply Rabs_R0.
Qed.

(** What [norm] computes on a non-empty real signal. *)
Lemma norm_real (x : list R) :
  x <> [] ->
  norm (real_signal x) = Ok (map (fun v => xdiv (Fin v) (Fin (maxabs x))) x).
Proof.
  intros Hx. unfold norm. rewrite (np_max_real x Hx). simpl.
  unfold real_signal. now rewrite map_map.
Qed.

Lemma xdiv_Fin_nonzero (v m : R) : m <> 0 -> xdiv (Fin v) (Fin m) = Fin (v / m).
Proof. intros Hm. simpl. destruct (Req_dec_T m 0); [contradiction|reflexivity]. Qed.

Lemma xdiv_zero_zero : xdiv (Fin 0) (Fin 0) = NaN.
Proof.
  simpl. destruct (Req_dec_T 0 0) as [_|N]; [|now elim N]. reflexivity.
Qed.

Lemma norm_nonzero (x : list R) :
  Exists (fun v => v <> 0) x ->
  norm (real_signal x) = Ok (real_signal (map (fun v => v / maxabs x) x)).
Proof.
  intros H. assert (Hm := maxabs_pos x H).
  rewrite norm_real by (intros ->; inversion H).
  unfold real_signal. rewrite map_map. f_equal.
  apply map_ext. intros v. apply xdiv_Fin_nonzero. lra.
Qed.

Lemma norm_all_zero (x : list R) :
  x <> [] -> Forall (fun v => v = 0) x ->
  norm (real_signal x) = Ok (repeat NaN (length x)).
Proof.
  intros Hx H0. rewrite (norm_real x Hx), (maxabs_zero x H0). f_equal.
  clear Hx. induction H0 as [|v t Hv _ IH]; simpl; [reflexivity|].
  subst v. rewrite <- IH. f_equal. apply xdiv_zero_zero.
Qed.

Example norm_3_4 :
  norm (real_signal [3; -4]) = Ok [Fin 0.75; Fin (-1)].
Proof.
  rewrite norm_nonzero by (apply Exists_cons_hd; lra).
  assert (E : maxabs [3; -4] = 4).
  { unfold maxabs. simpl. rewrite Rabs_pos_eq, Rabs_left by lra.
    unfold Rmax. destruct (Rle_dec 3 (- -4)); lra. }
  rewrite E. simpl. repeat f_equal; lra.
Qed.

Example norm_empty : norm (real_signal []) = Raise ValueError.
Proof. reflexivity. Qed.

(** Scaling by a positive factor scales the peak. *)
Lemma fold_Rmax_scale (c : R) (l : list R) (a : R) :
  0 <= c ->
  fold_left Rmax (map (fun v => v * c) l) (a * c) = fold_left Rmax l a * c.
Proof.
  intros Hc. revert a. induction l as [|b l IH]; intros a; simpl; [reflexivity|].
  rewrite <- IH. f_equal. rewrite !(Rmult_comm _ c).
  apply RmaxRmult. exact Hc.
Qed.

Lemma maxabs_scale (c : R) (x : list R) :
  0 <= c -> maxabs (map (fun v => v * c) x) = maxabs x * c.
Proof.
  intros Hc. destruct x as [|a t]; [unfold maxabs; simpl; lra|].
  unfold maxabs. simpl map. rewrite Rabs_mult, (Rabs_pos_eq c Hc).
  rewrite map_map.
  replace (map (fun v => Rabs (v * c)) t)
    with (map (fun v => v * c) (map Rabs t)).
  - apply fold_Rmax_scale. exact Hc.
  - rewrite map_map. apply map_ext. intros v.
    now rewrite Rabs_mult, (Rabs_pos_eq c Hc).
Qed.

Lemma maxabs_normalised (x : list R) :
  Exists (fun v => v <> 0) x -> maxabs (map (fun v => v / maxabs x) x) = 1.
Proof.
  intros H. assert (Hm := maxabs_pos x H).
  unfold Rdiv. rewrite maxabs_scale.
  - field. lra.
  - left. apply Rinv_0_lt_compat. exact Hm.
Qed.

(** C3 (as amended): on a non-empty real signal [norm] never raises.  If
    all samples are zero it returns a signal of the same length whose
    samples are all NaN (0/0); if at least one sample is non-zero it divides
    every sample by the maximum absolute value in the signal. *)
Theorem norm_cases (x : list R) :
  x <> [] ->
  (Forall (fun v => v = 0) x ->
   norm (real_signal x) = Ok (repeat NaN (length x))) /\
  (Exists (fun v => v <> 0) x ->
   norm (real_signal x) = Ok (real_signal (map (fun v => v / maxabs x) x)) /\
   In (maxabs x) (map Rabs x) /\
   Forall (fun v => Rabs v <= maxabs x) x).
Proof.
  intros Hx. split.
  - apply norm_all_zero, Hx.
  - intros H. split; [apply norm_nonzero, H|].
    split; [apply maxabs_In, Hx | apply maxabs_ge].
Qed.

Lemma norm_cases_witness :
  (Forall (fun v => v = 0) [3; -4] ->
   norm (real_signal [3; -4]) = Ok (repeat NaN (length [3; -4]))) /\
  (Exists (fun v => v <> 0) [3; -4] ->
   norm (real_signal [3; -4]) =
     Ok (real_signal (map (fun v => v / maxabs [3; -4]) [3; -4])) /\
   In (maxabs [3; -4]) (map Rabs [3; -4]) /\
   Forall (fun v => Rabs v <= maxabs [3; -4]) [3; -4]).
Proof.
  apply (norm_cases [3; -4]). discriminate.
Defined.

(** C3, the claim as worded fails on the all-zero signal [0, 0].  Line 76:
    [np.fabs(y).max() = 0.0] and [y / 0.0] is the array [[0/0, 0/0]]:
    [norm] returns [nan, nan] and raises nothing. *)
Lemma norm_all_zero_counterexample :
  norm (real_signal [0; 0]) = Ok [NaN; NaN] /\
  forall e, norm (real_signal [0; 0]) <> Raise e.
Proof.
  assert (H : norm (real_signal [0; 0]) = Ok [NaN; NaN]).
  { apply (norm_all_zero [0; 0]); [discriminate|]. repeat constructor. }
  split; [exact H|]. intros e. rewrite H. discriminate.
Qed.

(** C6: for every real signal [x] with at least one non-zero sample,
    [norm(x)] is defined, [norm(norm(x)) = norm(x)] and the maximum of
    [|norm(x)|] is 1. *)
Theorem norm_idempotent_unit_peak (x : list R) :
  Exists (fun v => v <> 0) x ->
  exists y, norm (real_signal x) = Ok y /\
            norm y = Ok y /\
            np_max (map xabs y) = Ok (Fin 1).
Proof.
  intros H. assert (Hm := maxabs_pos x H).
  set (x' := map (fun v => v / maxabs x) x).
  assert (H' : Exists (fun v => v <> 0) x').
  { apply Exists_exists in H. destruct H as (v & Hin & Hv).
    apply Exists_exists. exists (v / maxabs x). split.
    - unfold x'. apply in_map_iff. now exists v.
    - intros E. apply Hv.
      apply (Rmult_eq_reg_r (/ maxabs x)).
      + unfold Rdiv in E. rewrite E. ring.
      + apply Rinv_neq_0_compat. lra. }
  assert (H1 : maxabs x' = 1) by (apply maxabs_normalised, H).
  exists (real_signal x'). split; [apply norm_nonzero, H|]. split.
  - rewrite (norm_nonzero x' H'), H1. do 2 f_equal.
    rewrite <- (map_id x') at 2. apply map_ext. intros v. field.
  - rewrite np_max_real, H1; [reflexivity|].
    intros E. rewrite E in H'. inversion H'.
Qed.

Lemma norm_idempotent_unit_peak_witness :
  exists y, norm (real_signal [3; -4]) = Ok y /\
            norm y = Ok y /\
            np_max (map xabs y) = Ok (Fin 1).
Proof.
  apply (norm_idempotent_unit_peak [3; -4]).
  apply Exists_cons_hd. lra.
Defined.

(* ================================================================= *)
(** ** [parfilt] *)

Lemma lfilter_loop_length (b : list R) (a0 : R) (a' xh yh x : list R) :
  length (lfilter_loop b a0 a' xh yh x) = length x.
Proof.
  revert xh yh. induction x as [|xn xs IH]; intros xh yh; simpl;
    [reflexivity|]. now rewrite IH.
Qed.

Lemma dot_add (c h1 h2 : list R) :
  length h1 = length h2 ->
  dot c (map2 Rplus h1 h2) = dot c h1 + dot c h2.
Proof.
  revert h1 h2. induction c as [|ci c IH]; intros h1 h2 H.
  - simpl. lra.
  - destruct h1 as [|u h1], h2 as [|v h2]; simpl in *; try discriminate.
    + lra.
    + rewrite IH by lia. lra.
Qed.

(** The recursion is additive in the input and in its history. *)
Lemma lfilter_loop_add (b : list R) (a0 : R) (a' : list R) :
  forall x1 x2 xh1 xh2 yh1 yh2,
    length x1 = length x2 -> length xh1 = length xh2 ->
    length yh1 = length yh2 ->
    lfilter_loop b a0 a' (map2 Rplus xh1 xh2) (map2 Rplus yh1 yh2)
                 (map2 Rplus x1 x2) =
    map2 Rplus (lfilter_loop b a0 a' xh1 yh1 x1)
               (lfilter_loop b a0 a' xh2 yh2 x2).
Proof.
  induction x1 as [|u x1 IH]; intros [|v x2] xh1 xh2 yh1 yh2 Hx Hxh Hyh;
    simpl in *; try discriminate; [reflexivity|].
  assert (E : (dot b (u + v :: map2 Rplus xh1 xh2)
               - dot a' (map2 Rplus yh1 yh2)) / a0 =
              (dot b (u :: xh1) - dot a' yh1) / a0
              + (dot b (v :: xh2) - dot a' yh2) / a0).
  { change (u + v :: map2 Rplus xh1 xh2)
      with (map2 Rplus (u :: xh1) (v :: xh2)).
    rewrite !dot_add by (simpl; lia). unfold Rdiv. ring. }
  rewrite E. f_equal.
  apply (IH x2 (u :: xh1) (v :: xh2) (_ :: yh1) (_ :: yh2)); simpl; lia.
Qed.

Lemma lfilter_ok (b : list R) (a0 : R) (a' x : list R) :
  a0 <> 0 -> lfilter b (a0 :: a') x = Ok (lfilter_loop b a0 a' [] [] x).
Proof.
  intros H. unfold lfilter. destruct (Req_dec_T a0 0); [contradiction|reflexivity].
Qed.

Lemma lfilter_add (b : list R) (a0 : R) (a' x1 x2 : list R) :
  length x1 = length x2 ->
  lfilter_loop b a0 a' [] [] (np_add x1 x2) =
  np_add (lfilter_loop b a0 a' [] [] x1) (lfilter_loop b a0 a' [] [] x2).
Proof.
  intros H. exact (lfilter_loop_add b a0 a' x1 x2 [] [] [] [] H eq_refl eq_refl).
Qed.

(** A one-pole section: [y[n] = x[n] + y[n-1]/2] on a unit pulse. *)
Example lfilter_one_pole :
  lfilter [1] [1; -0.5] [1; 0; 0] = Ok [1; 0.5; 0.25].
Proof.
  rewrite lfilter_ok by lra. simpl. repeat f_equal; lra.
Qed.

Example lfilter_zero_lead : lfilter [1] [0; 1] [1; 0; 0] = Raise ValueError.
Proof.
  unfold lfilter. destruct (Req_dec_T 0 0) as [_|N]; [reflexivity|now elim N].
Qed.

Lemma column_denominator (Am : ndarray2) (k : nat) :
  (0 < shape0 Am)%nat -> (k < shape1 Am)%nat ->
  exists a', column Am k = Ok (at2 Am 0 k :: a').
Proof.
  intros H0 Hk. unfold column.
  destruct (Nat.ltb_spec k (shape1 Am)) as [_|?]; [|lia].
  destruct (shape0 Am) as [|m]; [lia|]. simpl. eexists. reflexivity.
Qed.

Lemma column_ok (Bm : ndarray2) (k : nat) :
  (k < shape1 Bm)%nat -> exists b, column Bm k = Ok b.
Proof.
  intros Hk. unfold column.
  destruct (Nat.ltb_spec k (shape1 Bm)) as [_|?]; [|lia]. eexists. reflexivity.
Qed.

Lemma np_iadd_same_length (y v : list R) :
  length v = length y -> np_iadd y v = Ok (np_add y v).
Proof. intros H. unfold np_iadd. now rewrite H, Nat.eqb_refl. Qed.

Lemma np_add_length (a b : list R) :
  length a = length b -> length (np_add a b) = length a.
Proof. apply map2_length. Qed.

Lemma np_add_zeros (n : nat) : np_add (repeat 0 n) (repeat 0 n) = repeat 0 n.
Proof.
  unfold np_add. induction n as [|n IH]; simpl; [reflexivity|].
  rewrite IH. f_equal. lra.
Qed.

Lemma np_add_interchange (a b c d : list R) :
  np_add (np_add a b) (np_add c d) = np_add (np_add a c) (np_add b d).
Proof.
  unfold np_add. revert b c d.
  induction a as [|u a IH]; intros [|v b] [|w c] [|z d]; simpl;
    try reflexivity.
  rewrite IH. f_equal. ring.
Qed.

Lemma parfilt_sections_step (Bm Am : ndarray2) (x y b a' : list R) (a0 : R)
  (k : nat) (ks : list nat) :
  column Bm k = Ok b -> column Am k = Ok (a0 :: a') -> a0 <> 0 ->
  length y = length x ->
  parfilt_sections Bm Am x (k :: ks) y =
  parfilt_sections Bm Am x ks (np_add y (lfilter_loop b a0 a' [] [] x)).
Proof.
  intros Eb Ea Ha Hy. cbn [parfilt_sections].
  rewrite (bind_ok _ _ _ Eb), (bind_ok _ _ _ Ea).
  rewrite (bind_ok _ _ _ (lfilter_ok b a0 a' x Ha)).
  rewrite (bind_ok _ _ (np_add y (lfilter_loop b a0 a' [] [] x))); [reflexivity|].
  apply np_iadd_same_length. rewrite lfilter_loop_length. lia.
Qed.

Lemma parfilt_of_sections (Bm Am : ndarray2) (FIR x r : list R) :
  parfilt_sections Bm Am x (seq 0 (shape1 Am)) (repeat 0 (length x)) = Ok r ->
  length r = length x ->
  parfilt Bm Am FIR x = Ok (np_add r (lfilter_loop FIR 1 [] [] [] x)).
Proof.
  intros E L. unfold parfilt. rewrite (bind_ok _ _ _ E).
  rewrite (bind_ok _ _ _ (lfilter_ok FIR 1 [] x ltac:(lra))).
  apply np_iadd_same_length. rewrite lfilter_loop_length. lia.
Qed.

Section ParallelFilter.

Variables Bm Am : ndarray2.
Variable FIR : list R.
Hypothesis Hset : coefficient_set Bm Am.

(** The sections loop returns, keeps the length, and is additive. *)
Lemma parfilt_sections_add (ks : list nat) :
  Forall (fun k => (k < shape1 Am)%nat) ks ->
  forall x1 x2 y1 y2,
    length x1 = length x2 -> length y1 = length x1 -> length y2 = length x1 ->
    exists r1 r2,
      parfilt_sections Bm Am x1 ks y1 = Ok r1 /\
      parfilt_sections Bm Am x2 ks y2 = Ok r2 /\
      length r1 = length x1 /\ length r2 = length x1 /\
      parfilt_sections Bm Am (np_add x1 x2) ks (np_add y1 y2) =
        Ok (np_add r1 r2).
Proof.
  destruct Hset as (Hcols & Hrows & Hlead).
  induction ks as [|k ks IH]; intros Hks x1 x2 y1 y2 Hx H1 H2.
  - exists y1, y2. simpl. repeat split; assumption.
  - inversion Hks as [|? ? Hk Hks']; subst.
    destruct (column_ok Bm k ltac:(lia)) as (b & Eb).
    destruct (column_denominator Am k Hrows Hk) as (a' & Ea).
    assert (Ha := Hlead k Hk).
    set (a0 := at2 Am 0 k) in *.
    set (f1 := lfilter_loop b a0 a' [] [] x1).
    set (f2 := lfilter_loop b a0 a' [] [] x2).
    assert (L1 : length f1 = length x1) by apply lfilter_loop_length.
    assert (L2 : length f2 = length x1)
      by (unfold f2; rewrite lfilter_loop_length; lia).
    destruct (IH Hks' x1 x2 (np_add y1 f1) (np_add y2 f2) Hx)
      as (r1 & r2 & E1 & E2 & Lr1 & Lr2 & E12);
      [rewrite np_add_length; lia .. |].
    exists r1, r2.
    rewrite !(parfilt_sections_step Bm Am _ _ b a' a0 k ks Eb Ea Ha)
      by (rewrite ?np_add_length; lia).
    fold f1 f2. rewrite lfilter_add by exact Hx. fold f1 f2.
    rewrite np_add_interchange. repeat split; assumption.
Qed.

Lemma parfilt_add_total (x1 x2 : list R) :
  length x1 = length x2 ->
  exists y1 y2,
    parfilt Bm Am FIR x1 = Ok y1 /\ parfilt Bm Am FIR x2 = Ok y2 /\
    length y1 = length x1 /\ length y2 = length x1 /\
    parfilt Bm Am FIR (np_add x1 x2) = Ok (np_add y1 y2).
Proof.
  intros Hx.
  destruct (parfilt_sections_add (seq 0 (shape1 Am))
              ltac:(apply Forall_forall; intros k Hk; apply in_seq in Hk; lia)
              x1 x2 (repeat 0 (length x1)) (repeat 0 (length x2)) Hx)
    as (r1 & r2 & E1 & E2 & L1 & L2 & E12).
  { apply repeat_length. }
  { rewrite repeat_length. lia. }
  assert (Z : np_add (repeat 0 (length x1)) (repeat 0 (length x2)) =
              repeat 0 (length (np_add x1 x2))).
  { rewrite np_add_length by exact Hx. rewrite <- Hx. apply np_add_zeros. }
  rewrite Z in E12.
  set (g1 := lfilter_loop FIR 1 [] [] [] x1).
  set (g2 := lfilter_loop FIR 1 [] [] [] x2).
  assert (G1 : length g1 = length x1) by apply lfilter_loop_length.
  assert (G2 : length g2 = length x1)
    by (unfold g2; rewrite lfilter_loop_length; lia).
  exists (np_add r1 g1), (np_add r2 g2).
  rewrite (parfilt_of_sections Bm Am FIR x1 r1 E1 L1).
  rewrite (parfilt_of_sections Bm Am FIR x2 r2 E2 ltac:(lia)).
  rewrite (parfilt_of_sections Bm Am FIR _ _ E12)
    by (rewrite !np_add_length; lia).
  rewrite lfilter_add by exact Hx. fold g1 g2.
  repeat split; try (rewrite np_add_length; lia).
  now rewrite np_add_interchange.
Qed.


(** C10: for every coefficient set and every input [x], [parfilt] returns a
    real signal whose length is the length of [x]. *)
Theorem parfilt_length (x : list R) :
  exists y, parfilt Bm Am FIR x = Ok y /\ length y = length x.
Proof.
  destruct (parfilt_add_total x x eq_refl) as (y & _ & E & _ & L & _).
  now exists y.
Qed.

End ParallelFilter.

(** A single section with denominator [1, 0.25, 0.25], numerator [1, 1, 1]
    and direct path [1, 0.5]. *)
Lemma example_coefficient_set :
  coefficient_set
    (mk_ndarray2 3 1 (fun _ _ => 1))
    (mk_ndarray2 3 1 (fun i _ => match i with O => 1 | _ => 0.25 end)).
Proof.
  split; [simpl; lia|]. split; [simpl; lia|]. intros k _. simpl. lra.
Defined.


Lemma parfilt_length_witness :
  exists y,
    parfilt (mk_ndarray2 3 1 (fun _ _ => 1))
            (mk_ndarray2 3 1 (fun i _ => match i with O => 1 | _ => 0.25 end))
            [1; 0.5] [1; 2; 3] = Ok y /\
    length y = 3%nat.
Proof.
  apply (parfilt_length _ _ [1; 0.5] example_coefficient_set [1; 2; 3]).
Defined.

(* ================================================================= *)
(** ** Complex numbers *)

Lemma complex_eq (z w : complex) : re z = re w -> im z = im w -> z = w.
Proof. destruct z, w. simpl. now intros -> ->. Qed.

Ltac Ceq := apply complex_eq; simpl; try ring.

Lemma Cconj_involutive (z : complex) : Cconj (Cconj z) = z.
Proof. Ceq. Qed.

Lemma Cexp_imag (w : R) : Cexp (Cmult Cimag (RtoC w)) = cis w.
Proof.
  unfold Cexp. simpl.
  replace (0 * w - 1 * 0) with 0 by ring.
  replace (0 * 0 + 1 * w) with w by ring.
  rewrite exp_0. Ceq.
Qed.

Lemma Cmod_scal_cis (a t : R) : 0 <= a -> Cmod (Cscal a (cis t)) = a.
Proof.
  intros Ha. unfold Cmod. simpl.
  replace (a * cos t * (a * cos t) + a * sin t * (a * sin t))
    with (a * a * ((sin t)² + (cos t)²)) by (unfold Rsqr; ring).
  rewrite sin2_cos2, Rmult_1_r. apply sqrt_square, Ha.
Qed.

(* ================================================================= *)
(** ** The pole grid *)

Lemma Rpower_pos (x y : R) : 0 < Rpower x y.
Proof. unfold Rpower. apply exp_pos. Qed.

Lemma pole_magnitude (w : R) : Cmod (pole w) = Rpower Rpole (w / PI).
Proof.
  unfold pole. rewrite Cexp_imag. apply Cmod_scal_cis.
  left. apply Rpower_pos.
Qed.

Lemma ln_Rpole_neg : ln Rpole < 0.
Proof.
  rewrite <- ln_1. apply ln_increasing; unfold Rpole; lra.
Qed.

(** The magnitude [R^(w/pi)] is [R] at the Nyquist frequency only. *)
Lemma Rpower_Rpole_eq (w : R) : Rpower Rpole (w / PI) = Rpole <-> w = PI.
Proof.
  assert (Hl := ln_Rpole_neg). assert (Hpi := PI_neq0). split.
  - intros E. unfold Rpower in E.
    rewrite <- (exp_ln Rpole) in E at 2 by (unfold Rpole; lra).
    apply exp_inv in E.
    assert (E' : w / PI = 1) by nra.
    apply (f_equal (fun v => v * PI)) in E'. field_simplify in E'; lra.
  - intros ->. unfold Rpower.
    replace (PI / PI * ln Rpole) with (ln Rpole) by (field; exact Hpi).
    apply exp_ln. unfold Rpole. lra.
Qed.

Lemma logspace_length (a b : R) (n : nat) : length (logspace a b n) = n.
Proof. unfold logspace. now rewrite length_map, length_seq. Qed.

Lemma fplog_length : length fplog = 25%nat.
Proof. unfold fplog. now rewrite length_app, !logspace_length. Qed.

Lemma p_length (Fs : Z) : length (p Fs) = 25%nat.
Proof. unfold p, wp. now rewrite !length_map, fplog_length. Qed.

Lemma plog_length (Fs : Z) : length (plog Fs) = 50%nat.
Proof. unfold plog. now rewrite length_app, length_map, p_length. Qed.

(** C7: for a positive sample rate, the pole set is closed under complex
    conjugation and holds [2 * (13 + 12) = 50] poles. *)
Theorem plog_conjugate_closed (Fs : Z) :
  (0 < Fs)%Z ->
  length (plog Fs) = (2 * (13 + 12))%nat /\
  forall q, In q (plog Fs) -> In (Cconj q) (plog Fs).
Proof.
  intros _. split.
  - apply plog_length.
  - intros q Hq. unfold plog in *. apply in_app_iff in Hq.
    apply in_app_iff. destruct Hq as [Hq|Hq].
    + right. apply in_map, Hq.
    + left. apply in_map_iff in Hq. destruct Hq as (q' & <- & Hq').
      now rewrite Cconj_involutive.
Qed.

Lemma plog_conjugate_closed_witness :
  length (plog 48000) = (2 * (13 + 12))%nat /\
  forall q, In q (plog 48000) -> In (Cconj q) (plog 48000).
Proof.
  apply (plog_conjugate_closed 48000). lia.
Defined.

Lemma Cmod_conj (z : complex) : Cmod (Cconj z) = Cmod z.
Proof. unfold Cmod. simpl. f_equal. ring. Qed.

(** C2 (as amended): for a positive sample rate, the pole built for the
    angular frequency [w] has magnitude [R^(w/pi)] with [R = 0.5], and so
    has its conjugate; that magnitude equals [R] only for [w = pi]. *)
Theorem plog_magnitude (Fs : Z) :
  (0 < Fs)%Z ->
  map Cmod (plog Fs) =
    map (fun w => Rpower Rpole (w / PI)) (wp Fs ++ wp Fs) /\
  forall w, Rpower Rpole (w / PI) = Rpole <-> w = PI.
Proof.
  intros _. split; [|apply Rpower_Rpole_eq].
  unfold plog, p. rewrite !map_app, !map_map. f_equal.
  - apply map_ext. intros w. apply pole_magnitude.
  - apply map_ext. intros w. rewrite Cmod_conj. apply pole_magnitude.
Qed.

Lemma plog_magnitude_witness :
  map Cmod (plog 48000) =
    map (fun w => Rpower Rpole (w / PI)) (wp 48000 ++ wp 48000) /\
  forall w, Rpower Rpole (w / PI) = Rpole <-> w = PI.
Proof.
  apply (plog_magnitude 48000). lia.
Defined.

Lemma ln_10_pos : 0 < ln 10.
Proof. rewrite <- ln_1. apply ln_increasing; lra. Qed.

Lemma Rpower_10_log10 (x : R) : 0 < x -> Rpower 10 (log10 x) = x.
Proof.
  intros Hx. assert (H := ln_10_pos). unfold Rpower, log10.
  replace (ln x / ln 10 * ln 10) with (ln x) by (field; lra).
  apply exp_ln, Hx.
Qed.

Lemma ln_2_lt_1 : ln 2 < 1.
Proof.
  rewrite <- (ln_exp 1). apply ln_increasing; [lra|].
  assert (H := exp_ineq1 1). lra.
Qed.

(** The first pole of the grid is the one of 30 Hz. *)
Lemma plog_first (Fs : Z) :
  nth 0 (plog Fs) Czero = pole (2 * PI * 30 / IZR Fs).
Proof.
  unfold plog, p, wp, fplog, logspace. simpl nth.
  rewrite Rmult_0_l, Rplus_0_r, Rpower_10_log10 by lra. reflexivity.
Qed.

(** C2, the claim as worded fails at [Fs = 48000].  The first pole is the
    one of [fplog[0] = 30] Hz: [wp[0] = 2 pi 30 / 48000 = pi/800], so its
    magnitude is [R^(wp[0]/pi) = 0.5^(1/800)], above 0.99 and so nowhere
    near [R = 0.5]. *)
Lemma plog_magnitude_counterexample :
  In (nth 0 (plog 48000) Czero) (plog 48000) /\
  0.99 < Cmod (nth 0 (plog 48000) Czero) /\
  Cmod (nth 0 (plog 48000) Czero) <> Rpole.
Proof.
  assert (H : 0.99 < Cmod (nth 0 (plog 48000) Czero)).
  { rewrite plog_first, pole_magnitude.
    replace (2 * PI * 30 / 48000 / PI) with (/ 800)
      by (field; apply PI_neq0).
    unfold Rpower, Rpole.
    replace 0.5 with (/ 2) by lra. rewrite ln_Rinv by lra.
    assert (H2 := ln_2_lt_1).
    assert (H0 : 0 < ln 2) by (rewrite <- ln_1; apply ln_increasing; lra).
    assert (Hx := exp_ineq1 (/ 800 * - ln 2)). lra. }
  split; [|split; [exact H | unfold Rpole; lra]].
  apply nth_In. rewrite plog_length. lia.
Qed.

(* ================================================================= *)
(** ** Slices *)

Lemma py_bound_le (L : nat) (i : Z) : (py_bound L i <= L)%nat.
Proof. unfold py_bound. destruct (Z.ltb_spec i 0); lia. Qed.

Lemma py_bound_nonneg (L : nat) (i : Z) :
  (0 <= i <= Z.of_nat L)%Z -> py_bound L i = Z.to_nat i.
Proof. intros H. unfold py_bound. destruct (Z.ltb_spec i 0); lia. Qed.

Lemma py_bound_neg (L : nat) (i : Z) :
  (- Z.of_nat L <= i < 0)%Z -> py_bound L i = (L - Z.to_nat (- i))%nat.
Proof. intros H. unfold py_bound. destruct (Z.ltb_spec i 0); lia. Qed.

Lemma slice_length {A : Type} (l : list A) (a : Z) (b : option Z) :
  length (slice l a b) =
  (match b with Some b => py_bound (length l) b | None => length l end
   - py_bound (length l) a)%nat.
Proof.
  unfold slice. rewrite length_firstn, length_skipn.
  assert (Ha := py_bound_le (length l) a).
  destruct b as [b|]; [assert (Hb := py_bound_le (length l) b)|]; lia.
Qed.

(** A slice assignment that succeeds keeps the length of the array. *)
Lemma set_slice_length {A : Type} (d : A) (Y : list A) (a : Z) (b : option Z)
  (V Y' : list A) :
  set_slice d Y a b V = Ok Y' -> length Y' = length Y.
Proof.
  unfold set_slice.
  set (start := py_bound (length Y) a).
  set (stop := match b with Some b => py_bound (length Y) b
                          | None => length Y end).
  assert (Hs : (start <= length Y)%nat) by apply py_bound_le.
  assert (He : (stop <= length Y)%nat).
  { unfold stop. destruct b; [apply py_bound_le|lia]. }
  destruct (Nat.eqb_spec (length V) (stop - start)) as [E|_].
  - intros [= <-]. rewrite !length_app, length_firstn, length_skipn. lia.
  - destruct (Nat.eqb_spec (length V) 1) as [_|_]; [|discriminate].
    intros [= <-].
    rewrite !length_app, length_firstn, length_skipn, repeat_length. lia.
Qed.

Lemma set_slice_total {A : Type} (d : A) (Y : list A) (a : Z) (b : option Z)
  (V : list A) :
  (length V =
   match b with Some b => py_bound (length Y) b | None => length Y end
   - py_bound (length Y) a)%nat \/ length V = 1%nat ->
  exists Y', set_slice d Y a b V = Ok Y'.
Proof.
  intros H. unfold set_slice.
  destruct (Nat.eqb_spec (length V)
              (match b with Some b => py_bound (length Y) b
                          | None => length Y end - py_bound (length Y) a))
    as [_|Hne]; [eexists; reflexivity|].
  destruct (Nat.eqb_spec (length V) 1) as [_|Hne1]; [eexists; reflexivity|].
  lia.
Qed.

(* ================================================================= *)
(** ** [resample] and the equalizer *)

Lemma removelast_length {A : Type} (l : list A) :
  length (removelast l) = (length l - 1)%nat.
Proof.
  induction l as [|a l IH]; [reflexivity|].
  destruct l as [|b l]; [reflexivity|].
  change (removelast (a :: b :: l)) with (a :: removelast (b :: l)).
  simpl length in *. rewrite IH. lia.
Qed.

Lemma hanning_length (M : nat) (sym : bool) : length (hanning M sym) = M.
Proof.
  unfold hanning. destruct M as [|[|M]]; [reflexivity..|].
  destruct (negb sym && Nat.even (S (S M))).
  - rewrite removelast_length, length_map, length_seq. lia.
  - now rewrite length_map, length_seq.
Qed.

Lemma ifftshift_length {A : Type} (x : list A) : length (ifftshift x) = length x.
Proof.
  unfold ifftshift. rewrite length_app, length_skipn, length_firstn.
  assert (length x / 2 <= length x)%nat by (apply Nat.Div0.div_le_upper_bound; lia).
  lia.
Qed.

Lemma windowed_length (X : list complex) (window : option window_name) :
  length (windowed X (length X) window) = length X.
Proof.
  destruct window as [[]|]; simpl; [|reflexivity].
  apply map2_length. now rewrite ifftshift_length, hanning_length.
Qed.

(** The array [Y] that [resample] fills from the spectrum [X]. *)
Lemma resample_fill_total (X : list complex) (num : Z) :
  (1 <= num)%Z -> (0 < length X)%nat ->
  (2 <= num)%Z \/ length X = 1%nat ->
  exists Y1 Y2,
    set_slice Czero (repeat Czero (Z.to_nat num)) 0
      (Some ((Z.min num (len X) + 1) / 2)%Z)
      (slice X 0 (Some ((Z.min num (len X) + 1) / 2)%Z)) = Ok Y1 /\
    set_slice Czero Y1 (- (Z.min num (len X) - 1) / 2)%Z None
      (slice X (- (Z.min num (len X) - 1) / 2)%Z None) = Ok Y2 /\
    length Y2 = Z.to_nat num.
Proof.
  intros Hnum HX Hcase. unfold len.
  set (N := Z.min num (Z.of_nat (length X))).
  assert (HN : (1 <= N)%Z) by lia.
  destruct (set_slice_total Czero (repeat Czero (Z.to_nat num)) 0
              (Some ((N + 1) / 2)%Z) (slice X 0 (Some ((N + 1) / 2)%Z)))
    as (Y1 & E1).
  { left. rewrite slice_length, repeat_length.
    rewrite !py_bound_nonneg by lia. reflexivity. }
  assert (L1 := set_slice_length _ _ _ _ _ _ E1). rewrite repeat_length in L1.
  destruct (set_slice_total Czero Y1 (- (N - 1) / 2)%Z None
              (slice X (- (N - 1) / 2)%Z None)) as (Y2 & E2).
  { rewrite slice_length, L1.
    destruct (Z.eq_dec N 1) as [E|E].
    - right. rewrite E. simpl. rewrite py_bound_nonneg by lia. lia.
    - left. rewrite !py_bound_neg by lia. lia. }
  assert (L2 := set_slice_length _ _ _ _ _ _ E2).
  exists Y1, Y2. repeat split; [exact E1 | exact E2 | lia].
Qed.

Lemma np_full_ok {A : Type} (v : A) (k : Z) :
  (0 <= k)%Z -> np_full v k = Ok (repeat v (Z.to_nat k)).
Proof. intros H. unfold np_full. destruct (Z.ltb_spec k 0); [lia|reflexivity]. Qed.

(** [resample] returns [num] samples. *)
Lemma resample_total (x : list complex) (num : Z) (window : option window_name) :
  (0 < length x)%nat -> (1 <= num)%Z ->
  (2 <= num)%Z \/ length x = 1%nat ->
  exists r, resample x num window = Ok r /\ length r = Z.to_nat num.
Proof.
  intros Hx Hnum Hcase. unfold resample.
  rewrite (bind_ok _ _ _ (fft_ok x (nonempty_length x Hx))). cbv zeta.
  set (X := windowed (dft (-1) x) (length x) window).
  assert (LX : length X = length x).
  { assert (H := windowed_length (dft (-1) x) window).
    rewrite dft_length in H. exact H. }
  rewrite (bind_ok _ _ _ (np_full_ok Czero num ltac:(lia))).
  destruct (resample_fill_total X num Hnum ltac:(lia) ltac:(lia))
    as (Y1 & Y2 & E1 & E2 & L2).
  replace (len x) with (len X) by (unfold len; now rewrite LX).
  rewrite (bind_ok _ _ _ E1), (bind_ok _ _ _ E2).
  destruct (ifft_total Y2 ltac:(lia)) as (y & Ey & Ly).
  rewrite (bind_ok _ _ _ Ey). eexists. split; [reflexivity|].
  rewrite length_map. lia.
Qed.

Lemma equalizer_taps_total (spectrum : list complex) (ntaps : Z) :
  spectrum <> [] -> (2 <= ntaps)%Z ->
  exists t, equalizer_taps spectrum ntaps = Ok t /\ len t = ntaps.
Proof.
  intros Hs Hn. unfold equalizer_taps.
  assert (Hl : (0 < length spectrum)%nat)
    by (destruct spectrum; [congruence|simpl; lia]).
  destruct (resample_total spectrum ntaps (Some Hanning) Hl ltac:(lia) ltac:(lia))
    as (e & Ee & Le).
  rewrite (bind_ok _ _ _ Ee).
  destruct (ifft_total e ltac:(lia)) as (t & Et & Lt).
  rewrite (bind_ok _ _ _ Et). eexists. split; [reflexivity|].
  unfold len. rewrite length_map. lia.
Qed.

(** C4 (as amended): for every [ntaps >= 2] and every non-empty input
    spectrum the equalizer is a signal of exactly [ntaps] samples; its peak
    amplitude is 1 when the taps before normalisation have a non-zero
    sample, and when they are all zero every sample is NaN. *)
Theorem equalizer_length (spectrum : list complex) (ntaps : Z) :
  spectrum <> [] -> (2 <= ntaps)%Z ->
  exists t e,
    equalizer_taps spectrum ntaps = Ok t /\
    equalizer spectrum ntaps = Ok e /\
    len e = ntaps /\
    (Exists (fun v => v <> 0) t -> np_max (map xabs e) = Ok (Fin 1)) /\
    (Forall (fun v => v = 0) t -> e = repeat NaN (Z.to_nat ntaps)).
Proof.
  intros Hs Hn.
  destruct (equalizer_taps_total spectrum ntaps Hs Hn) as (t & Et & Lt).
  assert (Ht : t <> []) by (intros ->; unfold len in Lt; simpl in Lt; lia).
  unfold equalizer. rewrite (bind_ok _ _ _ Et). rewrite (norm_real t Ht).
  exists t. eexists. split; [exact Et|]. split; [reflexivity|].
  split; [|split].
  - unfold len in *. now rewrite length_map.
  - intros Hnz. assert (E := norm_nonzero t Hnz).
    rewrite (norm_real t Ht) in E.
    replace (map (fun v => xdiv (Fin v) (Fin (maxabs t))) t)
      with (real_signal (map (fun v => v / maxabs t) t)) by congruence.
    rewrite np_max_real.
    + now rewrite maxabs_normalised.
    + intros E0. apply map_eq_nil in E0. contradiction.
  - intros Hz. assert (E := norm_all_zero t Ht Hz).
    rewrite (norm_real t Ht) in E.
    replace (map (fun v => xdiv (Fin v) (Fin (maxabs t))) t)
      with (repeat NaN (length t)) by congruence.
    f_equal. unfold len in Lt. lia.
Qed.

Lemma equalizer_length_witness :
  exists t e,
    equalizer_taps [Cone; Cone; Cone] 4 = Ok t /\
    equalizer [Cone; Cone; Cone] 4 = Ok e /\
    len e = 4%Z /\
    (Exists (fun v => v <> 0) t -> np_max (map xabs e) = Ok (Fin 1)) /\
    (Forall (fun v => v = 0) t -> e = repeat NaN (Z.to_nat 4)).
Proof.
  apply (equalizer_length [Cone; Cone; Cone] 4); [discriminate | lia].
Defined.

(** *** A zero spectrum gives zero taps *)

Lemma Forall_firstn_keep {A : Type} (P : A -> Prop) (n : nat) (l : list A) :
  Forall P l -> Forall P (firstn n l).
Proof.
  intros H. revert n. induction H as [|a l Ha _ IH]; intros [|n]; simpl;
    constructor; auto.
Qed.

Lemma Forall_skipn_keep {A : Type} (P : A -> Prop) (n : nat) (l : list A) :
  Forall P l -> Forall P (skipn n l).
Proof.
  intros H. revert n. induction H as [|a l Ha Hl IH]; intros [|n]; simpl;
    auto.
Qed.

Lemma Forall_repeat_keep {A : Type} (P : A -> Prop) (a : A) (n : nat) :
  P a -> Forall P (repeat a n).
Proof. intros H. induction n; simpl; constructor; auto. Qed.

Lemma all_zero_nth (l : list complex) (n : nat) :
  all_zero l -> nth n l Czero = Czero.
Proof.
  intros H. destruct (Nat.lt_ge_cases n (length l)) as [Hlt|Hge].
  - unfold all_zero in H. rewrite Forall_nth in H. apply H, Hlt.
  - apply nth_overflow, Hge.
Qed.

Lemma Csum_zero (f : nat -> complex) (n : nat) :
  (forall i, f i = Czero) -> Csum f n = Czero.
Proof.
  intros H. induction n as [|n IH]; simpl; [reflexivity|].
  rewrite IH, H. Ceq.
Qed.

Lemma dft_all_zero (s : R) (x : list complex) :
  all_zero x -> all_zero (dft s x).
Proof.
  intros H. unfold all_zero, dft. apply Forall_map, Forall_forall.
  intros k _. unfold dft_coeff. apply Csum_zero.
  intros i. rewrite (all_zero_nth x i H). Ceq.
Qed.

Lemma map_scal_all_zero (c : R) (x : list complex) :
  all_zero x -> all_zero (map (Cscal c) x).
Proof.
  intros H. unfold all_zero. apply Forall_map.
  eapply Forall_impl; [|exact H]. intros z ->. Ceq.
Qed.

Lemma windowed_all_zero (X : list complex) (n : nat)
  (window : option window_name) :
  all_zero X -> all_zero (windowed X n window).
Proof.
  intros H. destruct window as [name|]; simpl; [|exact H].
  generalize (ifftshift (get_window name n)). intros W. revert W.
  induction H as [|z X Hz _ IH]; intros [|w W]; simpl; constructor.
  - subst z. Ceq.
  - apply IH.
Qed.

Lemma slice_all_zero (l : list complex) (a : Z) (b : option Z) :
  all_zero l -> all_zero (slice l a b).
Proof.
  intros H. unfold slice. apply Forall_firstn_keep, Forall_skipn_keep, H.
Qed.

Lemma set_slice_all_zero (Y V Y' : list complex) (a : Z) (b : option Z) :
  all_zero Y -> all_zero V -> set_slice Czero Y a b V = Ok Y' -> all_zero Y'.
Proof.
  intros HY HV. unfold set_slice.
  destruct (Nat.eqb_spec (length V)
              (match b with Some b0 => py_bound (length Y) b0
                          | None => length Y end - py_bound (length Y) a))
    as [_|_].
  - intros [= <-]. unfold all_zero. rewrite !Forall_app. repeat split.
    + apply Forall_firstn_keep, HY.
    + exact HV.
    + apply Forall_skipn_keep, HY.
  - destruct (Nat.eqb_spec (length V) 1) as [_|_]; [|discriminate].
    intros [= <-]. unfold all_zero. rewrite !Forall_app. repeat split.
    + apply Forall_firstn_keep, HY.
    + apply Forall_repeat_keep. destruct HV; [reflexivity|assumption].
    + apply Forall_skipn_keep, HY.
Qed.

Lemma fft_all_zero (x X : list complex) :
  all_zero x -> fft x = Ok X -> all_zero X.
Proof.
  intros H E. destruct x as [|z x]; [discriminate|].
  rewrite fft_ok in E by discriminate.
  replace X with (dft (-1) (z :: x)) by congruence.
  apply dft_all_zero, H.
Qed.

Lemma ifft_all_zero (x y : list complex) :
  all_zero x -> ifft x = Ok y -> all_zero y.
Proof.
  intros H E. destruct x as [|z x]; [discriminate|].
  rewrite ifft_ok in E by discriminate.
  replace y with (map (Cscal (/ INR (length (z :: x)))) (dft 1 (z :: x)))
    by congruence.
  apply map_scal_all_zero, dft_all_zero, H.
Qed.

Lemma bind_inv {A B : Type} (m : result A) (k : A -> result B) (b : B) :
  bind m k = Ok b -> exists a, m = Ok a /\ k a = Ok b.
Proof. destruct m as [a|e]; simpl; [eauto|discriminate]. Qed.

Lemma resample_all_zero (x r : list complex) (num : Z)
  (window : option window_name) :
  all_zero x -> resample x num window = Ok r -> all_zero r.
Proof.
  intros Hx E. unfold resample in E.
  apply bind_inv in E. destruct E as (X & EX & E). cbv zeta in E.
  apply bind_inv in E. destruct E as (Y0 & EY0 & E).
  apply bind_inv in E. destruct E as (Y1 & EY1 & E).
  apply bind_inv in E. destruct E as (Y2 & EY2 & E).
  apply bind_inv in E. destruct E as (y & Ey & E).
  injection E as <-.
  assert (HX : all_zero (windowed X (length x) window))
    by (apply windowed_all_zero, (fft_all_zero x X Hx EX)).
  assert (H0 : all_zero Y0).
  { unfold np_full in EY0. destruct (num <? 0)%Z; [discriminate|].
    injection EY0 as <-. apply Forall_repeat_keep. reflexivity. }
  assert (H1 : all_zero Y1)
    by (eapply set_slice_all_zero; [exact H0 | | exact EY1];
        apply slice_all_zero, HX).
  assert (H2 : all_zero Y2)
    by (eapply set_slice_all_zero; [exact H1 | | exact EY2];
        apply slice_all_zero, HX).
  apply map_scal_all_zero. eapply ifft_all_zero; [exact H2 | exact Ey].
Qed.

Lemma equalizer_taps_all_zero (spectrum : list complex) (ntaps : Z)
  (t : list R) :
  all_zero spectrum -> equalizer_taps spectrum ntaps = Ok t ->
  Forall (fun v => v = 0) t.
Proof.
  intros Hs E. unfold equalizer_taps in E.
  apply bind_inv in E. destruct E as (e & Ee & E).
  apply bind_inv in E. destruct E as (y & Ey & E).
  injection E as <-.
  assert (Hy : all_zero y).
  { eapply ifft_all_zero; [|exact Ey].
    eapply resample_all_zero; [exact Hs | exact Ee]. }
  apply Forall_map. eapply Forall_impl; [|exact Hy]. now intros z ->.
Qed.

(** C4, the claim as worded fails on the zero spectrum [0, 0] with
    [ntaps = 2].  Line 137: the transform of [0, 0] is [0, 0], the window
    and the copy into [Y] keep zeros, and the inverse transform is [0, 0];
    line 138: the taps are [0, 0], their peak is 0 and [norm] returns
    [0/0, 0/0]: the equalizer is [nan, nan], whose peak is NaN and not 1.
    And on the empty spectrum the transform raises. *)
Lemma equalizer_zero_spectrum_counterexample :
  equalizer [Czero; Czero] 2 = Ok [NaN; NaN] /\
  np_max (map xabs [NaN; NaN]) = Ok NaN /\
  np_max (map xabs [NaN; NaN]) <> Ok (Fin 1) /\
  equalizer [] 2 = Raise ValueError.
Proof.
  destruct (equalizer_taps_total [Czero; Czero] 2 ltac:(discriminate) ltac:(lia))
    as (t & Et & Lt).
  assert (Ht : Forall (fun v => v = 0) t).
  { eapply equalizer_taps_all_zero; [|exact Et]. repeat constructor. }
  assert (Ee : equalizer [Czero; Czero] 2 = Ok [NaN; NaN]).
  { unfold equalizer. rewrite (bind_ok _ _ _ Et).
    rewrite norm_all_zero; [|intros ->; discriminate|exact Ht].
    unfold len in Lt. now replace (length t) with 2%nat by lia. }
  split; [exact Ee|].
  split; [reflexivity|]. split; [discriminate|reflexivity].
Qed.

(* ================================================================= *)
(** ** The discrete Fourier transform and its inverse *)

Lemma Csum_ext (f g : nat -> complex) (n : nat) :
  (forall i, (i < n)%nat -> f i = g i) -> Csum f n = Csum g n.
Proof.
  intros H. induction n as [|n IH]; simpl; [reflexivity|].
  rewrite IH, H by auto. reflexivity.
Qed.

Lemma Csum_scal (c : R) (f : nat -> complex) (n : nat) :
  Cscal c (Csum f n) = Csum (fun i => Cscal c (f i)) n.
Proof.
  induction n as [|n IH]; simpl; [Ceq|]. rewrite <- IH. Ceq.
Qed.

Lemma Csum_mult_r (f : nat -> complex) (c : complex) (n : nat) :
  Cmult (Csum f n) c = Csum (fun i => Cmult (f i) c) n.
Proof.
  induction n as [|n IH]; simpl; [Ceq|]. rewrite <- IH. Ceq.
Qed.

Lemma Csum_mult_l (c : complex) (f : nat -> complex) (n : nat) :
  Cmult c (Csum f n) = Csum (fun i => Cmult c (f i)) n.
Proof.
  induction n as [|n IH]; simpl; [Ceq|]. rewrite <- IH. Ceq.
Qed.

Lemma Csum_plus (f g : nat -> complex) (n : nat) :
  Csum (fun i => Cplus (f i) (g i)) n = Cplus (Csum f n) (Csum g n).
Proof.
  induction n as [|n IH]; simpl; [Ceq|]. rewrite IH. Ceq.
Qed.

(** Two finite sums may be exchanged. *)
Lemma Csum_swap (f : nat -> nat -> complex) (n m : nat) :
  Csum (fun i => Csum (fun j => f i j) m) n =
  Csum (fun j => Csum (fun i => f i j) n) m.
Proof.
  induction n as [|n IH]; simpl.
  - symmetry. apply Csum_zero. reflexivity.
  - rewrite IH. symmetry. apply Csum_plus.
Qed.

(** A sum with a single non-zero term. *)
Lemma Csum_single (f : nat -> complex) (n k : nat) :
  (k < n)%nat -> (forall j, (j < n)%nat -> j <> k -> f j = Czero) ->
  Csum f n = f k.
Proof.
  induction n as [|n IH]; intros Hk H; [lia|]. simpl.
  destruct (Nat.eq_dec k n) as [->|Hne].
  - rewrite (Csum_ext f (fun _ => Czero)) by (intros i Hi; apply H; lia).
    rewrite Csum_zero by reflexivity. Ceq.
  - rewrite IH by (try lia; intros j Hj; apply H; lia).
    rewrite (H n) by lia. Ceq.
Qed.

Lemma cis_plus (a b : R) : cis (a + b) = Cmult (cis a) (cis b).
Proof. apply complex_eq; simpl; [apply cos_plus | rewrite sin_plus; ring]. Qed.

Lemma cis_0 : cis 0 = Cone.
Proof. apply complex_eq; simpl; [apply cos_0 | apply sin_0]. Qed.

(** [e^(2 pi i m) = 1] for a natural number [m]. *)
Lemma cis_2PI_nat (m : nat) : cis (2 * INR m * PI) = Cone.
Proof.
  apply complex_eq; simpl.
  - rewrite <- (Rplus_0_l (2 * INR m * PI)), cos_period. apply cos_0.
  - rewrite <- (Rplus_0_l (2 * INR m * PI)), sin_period. apply sin_0.
Qed.

Lemma cis_opp (t : R) : cis (- t) = Cconj (cis t).
Proof. apply complex_eq; simpl; [apply cos_neg | apply sin_neg]. Qed.

(** [e^(2 pi i (j - k)) = 1] for natural numbers [j], [k]. *)
Lemma cis_2PI_diff (j k : nat) : cis (2 * PI * (INR j - INR k)) = Cone.
Proof.
  destruct (Nat.le_ge_cases k j) as [H|H].
  - replace (2 * PI * (INR j - INR k)) with (2 * INR (j - k) * PI)
      by (rewrite minus_INR by exact H; ring).
    apply cis_2PI_nat.
  - replace (2 * PI * (INR j - INR k)) with (- (2 * INR (k - j) * PI))
      by (rewrite minus_INR by exact H; ring).
    rewrite cis_opp, cis_2PI_nat. Ceq.
Qed.

(** Within one turn, [e^(i t) = 1] only at [t = 0]. *)
Lemma cis_eq_one (t : R) : - (2 * PI) < t < 2 * PI -> cis t = Cone -> t = 0.
Proof.
  intros Ht E. assert (Hc : cos t = 1) by exact (f_equal re E).
  assert (Hs : sin t = 0) by exact (f_equal im E).
  destruct (sin_eq_0_0 t Hs) as (m & Hm).
  assert (Hpi := PI_RGT_0).
  assert (Hlo : (-2 < m)%Z).
  { apply lt_IZR. apply (Rmult_lt_reg_r PI); [exact Hpi|]. rewrite <- Hm. lra. }
  assert (Hhi : (m < 2)%Z).
  { apply lt_IZR. apply (Rmult_lt_reg_r PI); [exact Hpi|]. rewrite <- Hm. lra. }
  assert (Hcases : m = (-1)%Z \/ m = 0%Z \/ m = 1%Z) by lia.
  destruct Hcases as [-> | [-> | ->]].
  - replace t with (- PI) in Hc by lra. rewrite cos_neg, cos_PI in Hc. lra.
  - lra.
  - replace t with PI in Hc by lra. rewrite cos_PI in Hc. lra.
Qed.

Lemma Cmult_zero_reg (z w : complex) :
  Cmult z w = Czero -> w <> Czero -> z = Czero.
Proof.
  intros E Hw. destruct z as [a b], w as [c d].
  assert (E1 : a * c - b * d = 0) by exact (f_equal re E).
  assert (E2 : a * d + b * c = 0) by exact (f_equal im E).
  assert (Hn : 0 < c * c + d * d).
  { destruct (Req_dec c 0) as [Hc|Hc], (Req_dec d 0) as [Hd|Hd];
      try nra. subst. now elim Hw. }
  assert (Ha : a * (c * c + d * d) = 0).
  { replace (a * (c * c + d * d))
      with (c * (a * c - b * d) + d * (a * d + b * c)) by ring.
    rewrite E1, E2. ring. }
  assert (Hb : b * (c * c + d * d) = 0).
  { replace (b * (c * c + d * d))
      with (c * (a * d + b * c) - d * (a * c - b * d)) by ring.
    rewrite E1, E2. ring. }
  apply Rmult_integral in Ha, Hb.
  apply complex_eq; simpl; lra.
Qed.

(** The geometric sum of [e^(i n t)]. *)
Lemma Csum_cis_telescope (t : R) (n : nat) :
  Cmult (Csum (fun i => cis (INR i * t)) n) (Cplus Cone (Cscal (-1) (cis t))) =
  Cplus Cone (Cscal (-1) (cis (INR n * t))).
Proof.
  induction n as [|n IH].
  - simpl Csum. rewrite Rmult_0_l, cis_0. Ceq.
  - cbn [Csum]. rewrite S_INR.
    replace ((INR n + 1) * t) with (INR n * t + t) by ring.
    rewrite cis_plus.
    transitivity (Cplus (Cmult (Csum (fun i => cis (INR i * t)) n)
                               (Cplus Cone (Cscal (-1) (cis t))))
                        (Cmult (cis (INR n * t))
                               (Cplus Cone (Cscal (-1) (cis t))))).
    + Ceq.
    + rewrite IH. Ceq.
Qed.

(** Orthogonality of the transform's kernels. *)
Lemma Csum_cis_orthogonal (N j k : nat) :
  (j < N)%nat -> (k < N)%nat -> j <> k ->
  Csum (fun n => cis (INR n * (2 * PI * (INR j - INR k) / INR N))) N = Czero.
Proof.
  intros Hj Hk Hjk.
  set (t := 2 * PI * (INR j - INR k) / INR N).
  assert (HN : 0 < INR N) by (apply lt_0_INR; lia).
  assert (Hpi := PI_RGT_0).
  assert (Hj' : 0 <= INR j < INR N) by (split; [apply pos_INR | apply lt_INR, Hj]).
  assert (Hk' : 0 <= INR k < INR N) by (split; [apply pos_INR | apply lt_INR, Hk]).
  assert (Hd : INR j - INR k <> 0).
  { intros E. apply Hjk, INR_eq. lra. }
  apply (Cmult_zero_reg _ (Cplus Cone (Cscal (-1) (cis t)))).
  - rewrite Csum_cis_telescope.
    replace (INR N * t) with (2 * PI * (INR j - INR k))
      by (unfold t; field; lra).
    rewrite cis_2PI_diff. Ceq.
  - intros E.
    assert (E1 : cis t = Cone).
    { assert (Er : 1 + -1 * cos t = 0) by exact (f_equal re E).
      assert (Ei : 0 + -1 * sin t = 0) by exact (f_equal im E).
      apply complex_eq; simpl; lra. }
    apply cis_eq_one in E1.
    + unfold t in E1.
      assert (E2 : 2 * PI * (INR j - INR k) = 0).
      { apply (Rmult_eq_reg_r (/ INR N)).
        - unfold Rdiv in E1. rewrite E1. ring.
        - apply Rinv_neq_0_compat. lra. }
      assert (E3 : INR j - INR k = 0) by nra.
      contradiction.
    + unfold t. split.
      * apply (Rmult_lt_reg_r (INR N)); [exact HN|].
        replace (2 * PI * (INR j - INR k) / INR N * INR N)
          with (2 * PI * (INR j - INR k)) by (field; lra).
        nra.
      * apply (Rmult_lt_reg_r (INR N)); [exact HN|].
        replace (2 * PI * (INR j - INR k) / INR N * INR N)
          with (2 * PI * (INR j - INR k)) by (field; lra).
        nra.
Qed.

Lemma Csum_const_one (N : nat) : Csum (fun _ => Cone) N = RtoC (INR N).
Proof.
  induction N as [|N IH]; [reflexivity|].
  cbn [Csum]. rewrite IH, S_INR. Ceq.
Qed.

Lemma nth_map_seq {A : Type} (f : nat -> A) (d : A) (N k : nat) :
  (k < N)%nat -> nth k (map f (seq 0 N)) d = f k.
Proof.
  intros Hk. rewrite (nth_indep _ d (f O)) by (now rewrite length_map, length_seq).
  rewrite map_nth, seq_nth by exact Hk. reflexivity.
Qed.

Lemma nth_dft (s : R) (x : list complex) (k : nat) :
  (k < length x)%nat -> nth k (dft s x) Czero = dft_coeff s x k.
Proof. intros Hk. unfold dft. now apply nth_map_seq. Qed.

Lemma nth_map_scal (c : R) (x : list complex) (n : nat) :
  nth n (map (Cscal c) x) Czero = Cscal c (nth n x Czero).
Proof.
  replace Czero with (Cscal c Czero) at 1 by Ceq. apply map_nth.
Qed.

Lemma dft_scal (s c : R) (x : list complex) :
  dft s (map (Cscal c) x) = map (Cscal c) (dft s x).
Proof.
  unfold dft. rewrite length_map, map_map. apply map_ext. intros k.
  unfold dft_coeff. rewrite length_map, Csum_scal. apply Csum_ext.
  intros n _. rewrite nth_map_scal. Ceq.
Qed.

(** The forward transform of the unnormalised inverse transform. *)
Lemma dft_roundtrip_coeff (x : list complex) (k : nat) :
  (k < length x)%nat ->
  dft_coeff (-1) (dft 1 x) k =
  Cmult (nth k x Czero) (RtoC (INR (length x))).
Proof.
  intros Hk. set (N := length x).
  assert (HN : 0 < INR N) by (apply lt_0_INR; unfold N; lia).
  pose (theta := fun j : nat => 2 * PI * (INR j - INR k) / INR N).
  unfold dft_coeff. rewrite dft_length. fold N.
  transitivity
    (Csum (fun n => Csum (fun j => Cmult (nth j x Czero)
                                    (cis (INR n * theta j))) N) N).
  { apply Csum_ext. intros n Hn. rewrite nth_dft by exact Hn.
    unfold dft_coeff. fold N. rewrite Csum_mult_r. apply Csum_ext.
    intros j _. unfold theta.
    replace (INR n * (2 * PI * (INR j - INR k) / INR N))
      with (1 * (2 * PI * INR n * INR j / INR N)
            + -1 * (2 * PI * INR k * INR n / INR N)) by (field; lra).
    rewrite cis_plus. Ceq. }
  rewrite Csum_swap.
  transitivity
    (Csum (fun j => Cmult (nth j x Czero)
                     (Csum (fun n => cis (INR n * theta j)) N)) N).
  { apply Csum_ext. intros j _. now rewrite Csum_mult_l. }
  rewrite (Csum_single _ N k Hk).
  - f_equal. rewrite <- Csum_const_one. apply Csum_ext. intros n _.
    unfold theta. replace (INR n * (2 * PI * (INR k - INR k) / INR N)) with 0
      by (field; lra).
    apply cis_0.
  - intros j Hj Hjk. unfold theta.
    rewrite (Csum_cis_orthogonal N j k Hj Hk Hjk). Ceq.
Qed.

(** [fft(ifft(x)) = x], in the form the code uses it. *)
Lemma dft_inverse (x : list complex) :
  dft (-1) (map (Cscal (/ INR (length x))) (dft 1 x)) = x.
Proof.
  rewrite dft_scal.
  apply (nth_ext _ _ Czero Czero).
  - now rewrite length_map, !dft_length.
  - rewrite length_map, !dft_length. intros k Hk.
    rewrite nth_map_scal, nth_dft by (now rewrite dft_length).
    rewrite (dft_roundtrip_coeff x k Hk).
    assert (HN : 0 < INR (length x)) by (apply lt_0_INR; lia).
    apply complex_eq; simpl; field; lra.
Qed.

Lemma fft_ifft (x y : list complex) : ifft x = Ok y -> fft y = Ok x.
Proof.
  intros E. destruct x as [|z x]; [discriminate|].
  rewrite ifft_ok in E by discriminate.
  replace y with (map (Cscal (/ INR (length (z :: x)))) (dft 1 (z :: x)))
    by congruence.
  rewrite fft_ok.
  - now rewrite dft_inverse.
  - apply nonempty_length. rewrite length_map, dft_length. simpl. lia.
Qed.

(* ================================================================= *)
(** ** The curve-file target for the two-row file *)

Lemma firstn_repeat_S {A : Type} (a : A) (m : nat) :
  firstn m (repeat a (S m)) = repeat a m.
Proof. induction m as [|m IH]; [reflexivity|]. simpl in *. now rewrite IH. Qed.

Lemma skipn_repeat_all {A : Type} (a : A) (m : nat) :
  skipn m (repeat a m) = [].
Proof. induction m as [|m IH]; [reflexivity|]. exact IH. Qed.

(** The array [resample] fills from the spectrum [1, 1] for [num = m + 2]:
    [1, 0, ..., 0, 1]. *)
Lemma resample_fill_two (m : nat) :
  set_slice Czero (repeat Czero (S (S m))) 0 (Some 1%Z)
    (slice [Cone; Cone] 0 (Some 1%Z)) = Ok (Cone :: repeat Czero (S m)) /\
  set_slice Czero (Cone :: repeat Czero (S m)) (-1) None
    (slice [Cone; Cone] (-1) None) = Ok (Cone :: repeat Czero m ++ [Cone]).
Proof.
  split.
  - unfold set_slice. rewrite repeat_length.
    rewrite (py_bound_nonneg (S (S m)) 0), (py_bound_nonneg (S (S m)) 1) by lia.
    reflexivity.
  - unfold set_slice.
    assert (L : length (Cone :: repeat Czero (S m)) = S (S m))
      by (simpl; now rewrite repeat_length).
    rewrite L, (py_bound_neg (S (S m)) (-1)) by lia.
    replace (S (S m) - Z.to_nat (- -1))%nat with (S m) by lia.
    replace (S (S m) - S m)%nat with 1%nat by lia.
    change (slice [Cone; Cone] (-1) None) with [Cone].
    cbn [length Nat.eqb].
    replace (S m + 1)%nat with (S (S m)) by lia.
    rewrite firstn_cons, skipn_cons, firstn_repeat_S, skipn_repeat_all.
    reflexivity.
Qed.

Lemma two_row_column : column two_row_target 1 = Ok [1; 1].
Proof. reflexivity. Qed.

(** The target spectrum for the two-row file and a response of [m + 2]
    samples: [(m+2)/2] in the first and the last bin, zero in between. *)
Lemma outf_two_rows (m : nat) :
  outf two_row_target (Z.of_nat (S (S m))) =
  Ok (map (Cscal (IZR (Z.of_nat (S (S m))) / 2))
          (Cone :: repeat Czero m ++ [Cone])).
Proof.
  unfold outf. rewrite (bind_ok _ _ _ two_row_column).
  destruct (ifft_total (map RtoC [1; 1])) as (i & Ei & Li); [simpl; lia|].
  rewrite (bind_ok _ _ _ Ei).
  assert (EX : fft i = Ok [Cone; Cone]) by exact (fft_ifft _ _ Ei).
  simpl length in Li.
  set (M := Z.of_nat (S (S m))).
  assert (Er : resample i M None =
               (y <- ifft (Cone :: repeat Czero m ++ [Cone]) ;;
                Ok (map (Cscal (IZR M / 2)) y))).
  { unfold resample. rewrite (bind_ok _ _ _ EX). cbv zeta.
    unfold windowed, len. rewrite Li.
    replace (Z.min M (Z.of_nat 2)) with 2%Z by (unfold M; lia).
    change ((2 + 1) / 2)%Z with 1%Z. change (- (2 - 1) / 2)%Z with (-1)%Z.
    rewrite (bind_ok _ _ _ (np_full_ok Czero M ltac:(unfold M; lia))).
    unfold M at 1. rewrite Nat2Z.id.
    destruct (resample_fill_two m) as (E1 & E2).
    rewrite (bind_ok _ _ _ E1), (bind_ok _ _ _ E2). reflexivity. }
  rewrite Er. clear Er.
  set (Y := Cone :: repeat Czero m ++ [Cone]).
  assert (HY : Y <> []) by discriminate.
  rewrite (bind_ok _ _ _ (ifft_ok Y HY)). cbn [bind].
  rewrite fft_ok.
  - now rewrite dft_scal, dft_inverse.
  - apply nonempty_length. rewrite !length_map, dft_length. unfold Y. simpl. lia.
Qed.

Lemma Cmod_scal_one (c : R) : 0 <= c -> Cmod (Cscal c Cone) = c.
Proof.
  intros Hc. unfold Cmod. simpl.
  replace (c * 1 * (c * 1) + c * 0 * (c * 0)) with (c * c) by ring.
  apply sqrt_square, Hc.
Qed.

Lemma Cmod_scal_zero (c : R) : Cmod (Cscal c Czero) = 0.
Proof.
  unfold Cmod. simpl.
  replace (c * 0 * (c * 0) + c * 0 * (c * 0)) with 0 by ring.
  apply sqrt_0.
Qed.

(** The magnitudes of the bins of [c * [1, 0, ..., 0, 1]]. *)
Lemma two_row_magnitudes (c : R) (m k : nat) :
  0 <= c ->
  Cmod (nth k (map (Cscal c) (Cone :: repeat Czero m ++ [Cone])) Czero) =
  if (k =? 0)%nat || (k =? S m)%nat then c else 0.
Proof.
  intros Hc. rewrite nth_map_scal.
  destruct k as [|k]; [apply Cmod_scal_one, Hc|]. cbn [nth orb Nat.eqb].
  destruct (Nat.lt_trichotomy k m) as [Hlt | [-> | Hgt]].
  - rewrite app_nth1 by (now rewrite repeat_length).
    rewrite nth_repeat_lt by exact Hlt.
    destruct (Nat.eqb_spec k m) as [?|_]; [lia|]. apply Cmod_scal_zero.
  - rewrite app_nth2 by (rewrite repeat_length; lia).
    rewrite repeat_length, Nat.sub_diag, Nat.eqb_refl. apply Cmod_scal_one, Hc.
  - rewrite nth_overflow
      by (rewrite length_app, repeat_length; simpl; lia).
    destruct (Nat.eqb_spec k m) as [?|_]; [lia|]. apply Cmod_scal_zero.
Qed.




(* ================================================================= *)
(** ** [norm] and gain *)

Lemma maxabs_gain (c : R) (x : list R) :
  0 <= c -> maxabs (map (Rmult c) x) = c * maxabs x.
Proof.
  intros Hc.
  rewrite (map_ext (Rmult c) (fun v => v * c)) by (intros v; ring).
  rewrite maxabs_scale by exact Hc. ring.
Qed.

Lemma xdiv_gain (c v m : R) :
  0 < c -> xdiv (Fin (c * v)) (Fin (c * m)) = xdiv (Fin v) (Fin m).
Proof.
  intros Hc. simpl.
  destruct (Req_dec_T (c * m) 0) as [Em|Em], (Req_dec_T m 0) as [Em'|Em'];
    try (exfalso; nra).
  - destruct (Req_dec_T (c * v) 0) as [Ev|Ev], (Req_dec_T v 0) as [Ev'|Ev'];
      try (exfalso; nra); [reflexivity|].
    destruct (Rlt_dec 0 (c * v)) as [Hv|Hv], (Rlt_dec 0 v) as [Hv'|Hv'];
      try reflexivity; exfalso; nra.
  - f_equal. field. split; lra.
Qed.



(* ================================================================= *)
(** ** [parfilt] as a linear time-invariant system *)

Lemma dot_gain (c : R) (b h : list R) :
  dot b (map (Rmult c) h) = c * dot b h.
Proof.
  revert h. induction b as [|bi b IH]; intros [|hi h]; simpl; try ring.
  rewrite IH. ring.
Qed.

Lemma lfilter_loop_gain (c : R) (b : list R) (a0 : R) (a' : list R) :
  forall x xh yh,
    lfilter_loop b a0 a' (map (Rmult c) xh) (map (Rmult c) yh)
                 (map (Rmult c) x) =
    map (Rmult c) (lfilter_loop b a0 a' xh yh x).
Proof.
  induction x as [|u x IH]; intros xh yh; simpl; [reflexivity|].
  assert (E : (dot b (c * u :: map (Rmult c) xh)
               - dot a' (map (Rmult c) yh)) / a0 =
              c * ((dot b (u :: xh) - dot a' yh) / a0)).
  { change (c * u :: map (Rmult c) xh) with (map (Rmult c) (u :: xh)).
    rewrite !dot_gain. unfold Rdiv. ring. }
  rewrite E. f_equal.
  exact (IH (u :: xh) ((dot b (u :: xh) - dot a' yh) / a0 :: yh)).
Qed.

Lemma dot_zeros (c : list R) (k : nat) : dot c (repeat 0 k) = 0.
Proof.
  revert k. induction c as [|ci c IH]; intros [|k]; simpl; try reflexivity.
  rewrite IH. ring.
Qed.

Lemma dot_app_zeros (c h : list R) (k : nat) :
  dot c (h ++ repeat 0 k) = dot c h.
Proof.
  revert h. induction c as [|ci c IH]; intros [|hi h]; simpl; try reflexivity.
  - change (match repeat 0 k with [] => 0 | hi :: h' => ci * hi + dot c h' end)
      with (dot (ci :: c) (repeat 0 k)). apply dot_zeros.
  - now rewrite IH.
Qed.

(** Zeros at the far end of the history change nothing. *)
Lemma lfilter_loop_zero_history (b : list R) (a0 : R) (a' : list R) (k k' : nat) :
  forall x xh yh,
    lfilter_loop b a0 a' (xh ++ repeat 0 k) (yh ++ repeat 0 k') x =
    lfilter_loop b a0 a' xh yh x.
Proof.
  induction x as [|u x IH]; intros xh yh; simpl; [reflexivity|].
  change (u :: xh ++ repeat 0 k) with ((u :: xh) ++ repeat 0 k).
  rewrite !dot_app_zeros. f_equal.
  exact (IH (u :: xh) ((dot b (u :: xh) - dot a' yh) / a0 :: yh)).
Qed.

(** The filter starts at rest: a leading zero of the input delays the
    output by one sample. *)
Lemma lfilter_loop_delay (b : list R) (a0 : R) (a' x : list R) :
  lfilter_loop b a0 a' [] [] (0 :: x) = 0 :: lfilter_loop b a0 a' [] [] x.
Proof.
  simpl.
  assert (E : (dot b [0] - dot a' []) / a0 = 0).
  { change [0] with (repeat 0 1). change (@nil R) with (repeat 0 0).
    rewrite !dot_zeros. unfold Rdiv. ring. }
  rewrite E. f_equal.
  exact (lfilter_loop_zero_history b a0 a' 1 1 x [] []).
Qed.

(** The output up to a sample depends on the input up to that sample. *)
Lemma lfilter_loop_causal (b : list R) (a0 : R) (a' : list R) :
  forall x x' xh yh,
    exists t,
      lfilter_loop b a0 a' xh yh (x ++ x') =
      lfilter_loop b a0 a' xh yh x ++ t.
Proof.
  induction x as [|u x IH]; intros x' xh yh; simpl.
  - eexists. reflexivity.
  - destruct (IH x' (u :: xh) ((dot b (u :: xh) - dot a' yh) / a0 :: yh))
      as (t & ->).
    exists t. reflexivity.
Qed.

Lemma np_add_gain (c : R) (a b : list R) :
  np_add (map (Rmult c) a) (map (Rmult c) b) = map (Rmult c) (np_add a b).
Proof.
  unfold np_add. revert b. induction a as [|u a IH]; intros [|v b]; simpl;
    try reflexivity.
  rewrite IH. f_equal. ring.
Qed.

Lemma np_add_app (a a' b b' : list R) :
  length a = length b ->
  np_add (a ++ a') (b ++ b') = np_add a b ++ np_add a' b'.
Proof.
  unfold np_add. revert b. induction a as [|u a IH]; intros [|v b] H;
    simpl in *; try discriminate; [reflexivity|].
  rewrite IH by lia. reflexivity.
Qed.

Lemma nth_np_add (a b : list R) (i : nat) :
  length a = length b -> nth i (np_add a b) 0 = nth i a 0 + nth i b 0.
Proof.
  unfold np_add. revert b i. induction a as [|u a IH]; intros [|v b] i H;
    simpl in *; try discriminate.
  - destruct i; ring.
  - destruct i as [|i]; [reflexivity|]. apply IH. lia.
Qed.

Lemma nth_map_gain (c : R) (a : list R) (i : nat) :
  nth i (map (Rmult c) a) 0 = c * nth i a 0.
Proof.
  rewrite <- (Rmult_0_r c) at 1. apply map_nth.
Qed.

Section TimeInvariance.

Variables Bm Am : ndarray2.
Variable FIR : list R.
Hypothesis Hset : coefficient_set Bm Am.

Let sections (ks : list nat) (x y : list R) : list R :=
  fold_left (fun acc k => np_add acc (section_out Bm Am k x)) ks y.

Lemma section_out_length (k : nat) (x : list R) :
  length (section_out Bm Am k x) = length x.
Proof. apply lfilter_loop_length. Qed.

Lemma sections_length (ks : list nat) (x y : list R) :
  length y = length x -> length (sections ks x y) = length x.
Proof.
  revert y. induction ks as [|k ks IH]; intros y Hy; [exact Hy|].
  simpl. apply IH. rewrite np_add_length; rewrite ?section_out_length; lia.
Qed.

(** On a coefficient set the loop of lines 71-72 returns the running sum of
    the section outputs. *)
Lemma parfilt_sections_sum (ks : list nat) (x y : list R) :
  Forall (fun k => (k < shape1 Am)%nat) ks -> length y = length x ->
  parfilt_sections Bm Am x ks y = Ok (sections ks x y).
Proof.
  destruct Hset as (Hcols & Hrows & Hlead).
  revert y. induction ks as [|k ks IH]; intros y Hks Hy; [reflexivity|].
  inversion Hks as [|? ? Hk Hks']; subst.
  assert (Eb : column Bm k = Ok (col Bm k)).
  { unfold column. destruct (Nat.ltb_spec k (shape1 Bm)); [reflexivity|lia]. }
  assert (Ea : column Am k = Ok (at2 Am 0 k :: tl (col Am k))).
  { unfold column, col. destruct (Nat.ltb_spec k (shape1 Am)); [|lia].
    destruct (shape0 Am); [lia|reflexivity]. }
  rewrite (parfilt_sections_step Bm Am x y _ _ _ k ks Eb Ea (Hlead k Hk) Hy).
  rewrite IH; [reflexivity | exact Hks' |].
  rewrite np_add_length; rewrite ?lfilter_loop_length; lia.
Qed.

(** On a coefficient set [parfilt] returns the sum of its sections and of
    the direct path. *)
Lemma parfilt_closed (x : list R) :
  parfilt Bm Am FIR x = Ok (parfilt_sum Bm Am FIR x).
Proof.
  apply parfilt_of_sections.
  - apply parfilt_sections_sum; [|apply repeat_length].
    apply Forall_forall. intros k Hk. apply in_seq in Hk. lia.
  - apply sections_length, repeat_length.
Qed.

Lemma parfilt_sum_eq (x : list R) :
  parfilt_sum Bm Am FIR x =
  np_add (sections (seq 0 (shape1 Am)) x (repeat 0 (length x)))
         (lfilter_loop FIR 1 [] [] [] x).
Proof. reflexivity. Qed.

Lemma parfilt_sum_length (x : list R) :
  length (parfilt_sum Bm Am FIR x) = length x.
Proof.
  rewrite parfilt_sum_eq, np_add_length.
  - apply sections_length, repeat_length.
  - rewrite lfilter_loop_length. apply sections_length, repeat_length.
Qed.

Lemma sections_gain (c : R) (ks : list nat) (x y : list R) :
  sections ks (map (Rmult c) x) (map (Rmult c) y) =
  map (Rmult c) (sections ks x y).
Proof.
  revert y. induction ks as [|k ks IH]; intros y; [reflexivity|].
  simpl. rewrite <- IH. f_equal. unfold section_out.
  rewrite <- np_add_gain. f_equal.
  exact (lfilter_loop_gain c _ _ _ x [] []).
Qed.

Lemma parfilt_sum_gain (c : R) (x : list R) :
  parfilt_sum Bm Am FIR (map (Rmult c) x) =
  map (Rmult c) (parfilt_sum Bm Am FIR x).
Proof.
  rewrite !parfilt_sum_eq, length_map, <- np_add_gain. f_equal.
  - rewrite <- sections_gain. f_equal.
    induction (length x) as [|n IH]; simpl; [reflexivity|].
    rewrite <- IH. f_equal. ring.
  - exact (lfilter_loop_gain c _ _ _ x [] []).
Qed.

Lemma sections_delay (ks : list nat) (x y : list R) :
  sections ks (0 :: x) (0 :: y) = 0 :: sections ks x y.
Proof.
  revert y. induction ks as [|k ks IH]; intros y; [reflexivity|].
  simpl. rewrite <- IH. f_equal. unfold section_out.
  rewrite lfilter_loop_delay. unfold np_add. simpl. f_equal. ring.
Qed.

Lemma parfilt_sum_delay (x : list R) :
  parfilt_sum Bm Am FIR (0 :: x) = 0 :: parfilt_sum Bm Am FIR x.
Proof.
  rewrite !parfilt_sum_eq. simpl length. simpl repeat.
  rewrite sections_delay, lfilter_loop_delay. unfold np_add. simpl.
  f_equal. ring.
Qed.

Lemma sections_causal (ks : list nat) (x x' y y' : list R) :
  length y = length x ->
  exists t, sections ks (x ++ x') (y ++ y') = sections ks x y ++ t.
Proof.
  revert y y'. induction ks as [|k ks IH]; intros y y' Hy.
  - exists y'. reflexivity.
  - simpl. unfold section_out at 1.
    destruct (lfilter_loop_causal (col Bm k) (at2 Am 0 k) (tl (col Am k))
                x x' [] []) as (t & ->).
    fold (section_out Bm Am k x).
    rewrite np_add_app by (rewrite section_out_length; exact Hy).
    apply IH. rewrite np_add_length; rewrite ?section_out_length; lia.
Qed.

Lemma parfilt_sum_causal (x x' : list R) :
  exists t,
    parfilt_sum Bm Am FIR (x ++ x') = parfilt_sum Bm Am FIR x ++ t.
Proof.
  rewrite !parfilt_sum_eq, length_app, repeat_app.
  destruct (sections_causal (seq 0 (shape1 Am)) x x'
              (repeat 0 (length x)) (repeat 0 (length x'))
              (repeat_length 0 (length x))) as (t & ->).
  destruct (lfilter_loop_causal FIR 1 [] x x' [] []) as (t' & ->).
  rewrite np_add_app.
  - eexists. reflexivity.
  - rewrite lfilter_loop_length. apply sections_length, repeat_length.
Qed.

End TimeInvariance.

Lemma Rsum_ext (f g : nat -> R) (n : nat) :
  (forall j, (j < n)%nat -> f j = g j) -> Rsum f n = Rsum g n.
Proof.
  intros H. induction n as [|n IH]; simpl; [reflexivity|].
  rewrite IH, H by auto. reflexivity.
Qed.

Lemma Rsum_S (f : nat -> R) (n : nat) : Rsum f (S n) = Rsum f n + f n.
Proof. reflexivity. Qed.

Lemma convolve_cons (h h' : list R) (a : R) (x : list R) (i : nat) :
  (forall j, (j <= i)%nat -> nth j h 0 = nth j h' 0) ->
  convolve h (a :: x) (S i) = convolve h' x i + nth (S i) h 0 * a.
Proof.
  intros Hh. unfold convolve. rewrite (Rsum_S _ (S i)).
  rewrite Nat.sub_diag. cbn [nth]. f_equal.
  apply Rsum_ext. intros j Hj.
  replace (S i - j)%nat with (S (i - j)) by lia. cbn [nth].
  rewrite Hh by lia. reflexivity.
Qed.

Lemma Ok_inj {A : Type} (a b : A) : Ok a = Ok b -> a = b.
Proof. congruence. Qed.

(** An input is its first sample times the unit pulse, plus the rest
    delayed by one sample. *)
Lemma pulse_decompose (a : R) (x : list R) :
  a :: x =
  np_add (map (Rmult a) (1 :: repeat 0 (length x))) (0 :: x).
Proof.
  unfold np_add. simpl. f_equal; [ring|].
  induction x as [|v x IH]; simpl; [reflexivity|].
  rewrite <- IH. f_equal. ring.
Qed.

Section ImpulseResponse.

Variables Bm Am : ndarray2.
Variable FIR : list R.
Hypothesis Hset : coefficient_set Bm Am.

Let T : list R -> list R := parfilt_sum Bm Am FIR.

Lemma parfilt_sum_add (x1 x2 : list R) :
  length x1 = length x2 -> T (np_add x1 x2) = np_add (T x1) (T x2).
Proof.
  intros Hx.
  destruct (parfilt_add_total Bm Am FIR Hset x1 x2 Hx)
    as (y1 & y2 & E1 & E2 & _ & _ & E12).
  rewrite (parfilt_closed Bm Am FIR Hset) in E1, E2, E12.
  apply Ok_inj in E1, E2, E12. unfold T. congruence.
Qed.

Lemma parfilt_sum_cons (a : R) (x : list R) :
  T (a :: x) =
  np_add (map (Rmult a) (T (1 :: repeat 0 (length x)))) (0 :: T x).
Proof.
  rewrite (pulse_decompose a x) at 1.
  rewrite parfilt_sum_add
    by (simpl; now rewrite length_map, repeat_length).
  unfold T. now rewrite parfilt_sum_gain, parfilt_sum_delay.
Qed.

(** A longer pulse has the same response, further on. *)
Lemma pulse_response_prefix (m j : nat) :
  (j <= m)%nat ->
  nth j (T (1 :: repeat 0 (S m))) 0 = nth j (T (1 :: repeat 0 m)) 0.
Proof.
  intros Hj.
  assert (E : 1 :: repeat 0 (S m) = (1 :: repeat 0 m) ++ [0]).
  { simpl. f_equal. apply (repeat_cons m 0). }
  rewrite E. unfold T.
  destruct (parfilt_sum_causal Bm Am FIR (1 :: repeat 0 m) [0]) as (t & ->).
  apply app_nth1. rewrite parfilt_sum_length. simpl. rewrite repeat_length. lia.
Qed.

Lemma parfilt_sum_convolution (x : list R) (i : nat) :
  (i < length x)%nat ->
  nth i (T x) 0 = convolve (T (1 :: repeat 0 (length x - 1))) x i.
Proof.
  revert i. induction x as [|a x IH]; intros i Hi; [simpl in Hi; lia|].
  simpl length. replace (S (length x) - 1)%nat with (length x) by lia.
  set (h := T (1 :: repeat 0 (length x))).
  rewrite parfilt_sum_cons. fold h.
  rewrite nth_np_add, nth_map_gain.
  2:{ unfold h, T. simpl.
      rewrite length_map, !parfilt_sum_length. simpl.
      now rewrite repeat_length. }
  destruct i as [|i].
  - unfold convolve. simpl. ring.
  - simpl in Hi. assert (Hi' : (i < length x)%nat) by lia.
    cbn [nth]. rewrite (IH i Hi').
    rewrite (convolve_cons h (T (1 :: repeat 0 (length x - 1))) a x i).
    + ring.
    + intros j Hj. unfold h.
      destruct (length x) as [|m] eqn:El; [lia|].
      replace (S m - 1)%nat with m by lia.
      apply pulse_response_prefix. lia.
Qed.

End ImpulseResponse.



(** X3: [parfilt] is time-invariant and starts at rest: for every
    coefficient set, an input delayed by [d] samples (preceded by [d]
    zeros) gives the output delayed by [d] samples. *)
Theorem parfilt_delay (Bm Am : ndarray2) (FIR x : list R) (d : nat) :
  coefficient_set Bm Am ->
  exists y,
    parfilt Bm Am FIR x = Ok y /\
    parfilt Bm Am FIR (repeat 0 d ++ x) = Ok (repeat 0 d ++ y).
Proof.
  intros Hset. exists (parfilt_sum Bm Am FIR x).
  rewrite !(parfilt_closed Bm Am FIR Hset). split; [reflexivity|]. f_equal.
  induction d as [|d IH]; [reflexivity|].
  simpl. now rewrite parfilt_sum_delay, IH.
Qed.

Lemma parfilt_delay_witness :
  exists y,
    parfilt (mk_ndarray2 3 1 (fun _ _ => 1))
            (mk_ndarray2 3 1 (fun i _ => match i with O => 1 | _ => 0.25 end))
            [1; 0.5] [1; 2; 3] = Ok y /\
    parfilt (mk_ndarray2 3 1 (fun _ _ => 1))
            (mk_ndarray2 3 1 (fun i _ => match i with O => 1 | _ => 0.25 end))
            [1; 0.5] (repeat 0 2 ++ [1; 2; 3]) = Ok (repeat 0 2 ++ y).
Proof.
  apply (parfilt_delay _ _ [1; 0.5] [1; 2; 3] 2 example_coefficient_set).
Defined.



(* ================================================================= *)
(** ** The pole grid: frequencies and radii *)

Lemma log10_le (x y : R) : 0 < x -> x <= y -> log10 x <= log10 y.
Proof.
  intros Hx Hxy. assert (H10 := ln_10_pos). unfold log10.
  apply Rmult_le_compat_r; [left; now apply Rinv_0_lt_compat|].
  destruct Hxy as [Hlt| ->]; [left; now apply ln_increasing|right; reflexivity].
Qed.

Lemma nth_logspace (a b : R) (n i : nat) :
  (i < n)%nat ->
  nth i (logspace a b n) 0 =
  Rpower 10 (a + INR i * ((b - a) / INR (n - 1))).
Proof.
  intros Hi. unfold logspace.
  exact (nth_map_seq
           (fun i => Rpower 10 (a + INR i * ((b - a) / INR (n - 1))))
           0 n i Hi).
Qed.

(** The exponents of a grid of at least two points rise from [a] to [b]. *)
Lemma logspace_exponent_range (a b : R) (n i : nat) :
  a <= b -> (i < n)%nat -> (2 <= n)%nat ->
  a <= a + INR i * ((b - a) / INR (n - 1)) <= b.
Proof.
  intros Hab Hi Hn.
  assert (Hn1 : 0 < INR (n - 1)) by (apply lt_0_INR; lia).
  assert (Hi0 : 0 <= INR i) by apply pos_INR.
  assert (Hi1 : INR i <= INR (n - 1)) by (apply le_INR; lia).
  assert (Hq : 0 <= (b - a) / INR (n - 1)).
  { apply Rmult_le_pos; [lra|]. left. now apply Rinv_0_lt_compat. }
  split; [nra|].
  replace b with (a + INR (n - 1) * ((b - a) / INR (n - 1))) at 2
    by (field; lra).
  apply Rplus_le_compat_l, Rmult_le_compat_r; assumption.
Qed.

Lemma logspace_range (x y : R) (n : nat) :
  0 < x -> x <= y -> (2 <= n)%nat ->
  Forall (fun f => x <= f <= y) (logspace (log10 x) (log10 y) n).
Proof.
  intros Hx Hxy Hn. apply Forall_nth. intros i d Hi.
  rewrite logspace_length in Hi.
  rewrite (nth_indep _ d 0) by (now rewrite logspace_length).
  rewrite nth_logspace by exact Hi.
  destruct (logspace_exponent_range (log10 x) (log10 y) n i
              (log10_le x y Hx Hxy) Hi Hn) as [Hlo Hhi].
  split.
  - apply Rle_trans with (Rpower 10 (log10 x));
      [rewrite Rpower_10_log10 by exact Hx; lra | apply Rle_Rpower; lra].
  - apply Rle_trans with (Rpower 10 (log10 y));
      [apply Rle_Rpower; lra | rewrite Rpower_10_log10 by lra; lra].
Qed.

(** Every frequency of the grid lies between 30 Hz and 18 kHz. *)
Lemma fplog_range : Forall (fun f => 30 <= f <= 18000) fplog.
Proof.
  unfold fplog. apply Forall_app. split.
  - eapply Forall_impl; [|apply (logspace_range 30 200 13); try lra; lia].
    simpl. intros f Hf. lra.
  - eapply Forall_impl; [|apply (logspace_range 250 18000 12); try lra; lia].
    simpl. intros f Hf. lra.
Qed.

(** The radius [R^e] falls as the exponent rises. *)
Lemma Rpower_Rpole_decreasing (e1 e2 : R) :
  e1 < e2 -> Rpower Rpole e2 < Rpower Rpole e1.
Proof.
  intros H. assert (Hl := ln_Rpole_neg). unfold Rpower.
  apply exp_increasing. nra.
Qed.

Lemma pole_exponent (Fs : Z) (f : R) :
  2 * PI * f / IZR Fs / PI = 2 * f / IZR Fs.
Proof.
  unfold Rdiv.
  replace (2 * PI * f * / IZR Fs * / PI)
    with (2 * f * / IZR Fs * (PI * / PI)) by ring.
  rewrite Rinv_r by apply PI_neq0. ring.
Qed.

(** X5: the poles are stable: for a positive sample rate every pole of the
    grid lies strictly inside the unit circle, at a radius of at least
    [R^(36000/Fs)] (so at least [R] when 18 kHz is below the Nyquist
    frequency). *)
Theorem plog_stable (Fs : Z) :
  (0 < Fs)%Z ->
  Forall (fun q => Rpower Rpole (36000 / IZR Fs) <= Cmod q < 1) (plog Fs).
Proof.
  intros HFs. apply Forall_forall. intros q Hq.
  assert (HF : 0 < IZR Fs) by (apply IZR_lt; exact HFs).
  assert (Hp : forall q', In q' (p Fs) ->
                          Rpower Rpole (36000 / IZR Fs) <= Cmod q' < 1).
  { intros q' Hq'. unfold p, wp in Hq'. rewrite map_map in Hq'.
    apply in_map_iff in Hq'. destruct Hq' as (f & <- & Hf).
    assert (Hr := fplog_range). rewrite Forall_forall in Hr.
    specialize (Hr f Hf).
    rewrite pole_magnitude, pole_exponent.
    assert (He : 0 < 2 * f / IZR Fs <= 36000 / IZR Fs).
    { unfold Rdiv. split.
      - apply Rmult_lt_0_compat; [lra|now apply Rinv_0_lt_compat].
      - apply Rmult_le_compat_r; [left; now apply Rinv_0_lt_compat|lra]. }
    split.
    - destruct He as [_ [Hlt|Heq]].
      + left. apply Rpower_Rpole_decreasing, Hlt.
      + right. now rewrite Heq.
    - rewrite <- (Rpower_O Rpole) by (unfold Rpole; lra).
      apply Rpower_Rpole_decreasing. lra. }
  unfold plog in Hq. apply in_app_iff in Hq. destruct Hq as [Hq|Hq].
  - apply Hp, Hq.
  - apply in_map_iff in Hq. destruct Hq as (q' & <- & Hq').
    rewrite Cmod_conj. apply Hp, Hq'.
Qed.

Lemma plog_stable_witness :
  Forall (fun q => Rpower Rpole (36000 / 48000) <= Cmod q < 1) (plog 48000).
Proof.
  apply (plog_stable 48000). lia.
Defined.

Lemma log10_lt (x y : R) : 0 < x -> x < y -> log10 x < log10 y.
Proof.
  intros Hx Hxy. assert (H10 := ln_10_pos). unfold log10.
  apply Rmult_lt_compat_r; [now apply Rinv_0_lt_compat|].
  now apply ln_increasing.
Qed.

(** A grid of at least two points from [x] up to a larger [y] rises. *)
Lemma logspace_increasing (x y : R) (n i j : nat) :
  0 < x -> x < y -> (i < j)%nat -> (j < n)%nat ->
  nth i (logspace (log10 x) (log10 y) n) 0 <
  nth j (logspace (log10 x) (log10 y) n) 0.
Proof.
  intros Hx Hxy Hij Hj. rewrite !nth_logspace by lia.
  apply Rpower_lt; [lra|].
  assert (Hn1 : 0 < INR (n - 1)) by (apply lt_0_INR; lia).
  assert (Hl := log10_lt x y Hx Hxy).
  assert (Hq : 0 < (log10 y - log10 x) / INR (n - 1)).
  { apply Rmult_lt_0_compat; [lra|]. now apply Rinv_0_lt_compat. }
  assert (Hi : INR i < INR j) by (apply lt_INR, Hij).
  nra.
Qed.

(** The 25 frequencies of the grid rise. *)
Lemma fplog_increasing (i j : nat) :
  (i < j)%nat -> (j < 25)%nat -> nth i fplog 0 < nth j fplog 0.
Proof.
  intros Hij Hj. unfold fplog.
  assert (R1 := logspace_range 30 200 13 ltac:(lra) ltac:(lra) ltac:(lia)).
  assert (R2 := logspace_range 250 18000 12 ltac:(lra) ltac:(lra) ltac:(lia)).
  rewrite Forall_nth in R1, R2.
  destruct (Nat.lt_ge_cases j 13) as [Hj1|Hj1].
  - rewrite !app_nth1 by (rewrite logspace_length; lia).
    apply logspace_increasing; try lra; lia.
  - rewrite (app_nth2 _ _ _ (n := j)) by (rewrite logspace_length; lia).
    rewrite logspace_length.
    destruct (Nat.lt_ge_cases i 13) as [Hi1|Hi1].
    + rewrite app_nth1 by (rewrite logspace_length; lia).
      specialize (R1 i 0). specialize (R2 (j - 13)%nat 0).
      rewrite logspace_length in R1, R2.
      specialize (R1 Hi1). specialize (R2 ltac:(lia)). lra.
    + rewrite app_nth2 by (rewrite logspace_length; lia).
      rewrite logspace_length.
      apply logspace_increasing; try lra; lia.
Qed.

Lemma nth_p (Fs : Z) (i : nat) :
  (i < 25)%nat ->
  nth i (p Fs) Czero = pole (2 * PI * nth i fplog 0 / IZR Fs).
Proof.
  intros Hi. unfold p, wp. rewrite map_map.
  rewrite (nth_indep _ Czero (pole (2 * PI * 0 / IZR Fs)))
    by (now rewrite length_map, fplog_length).
  apply (map_nth (fun f => pole (2 * PI * f / IZR Fs))).
Qed.

Lemma p_radius_decreasing (Fs : Z) (i j : nat) :
  (0 < Fs)%Z -> (i < j)%nat -> (j < 25)%nat ->
  Cmod (nth j (p Fs) Czero) < Cmod (nth i (p Fs) Czero).
Proof.
  intros HFs Hij Hj.
  assert (HF : 0 < IZR Fs) by (apply IZR_lt; exact HFs).
  rewrite !nth_p by lia. rewrite !pole_magnitude, !pole_exponent.
  apply Rpower_Rpole_decreasing.
  assert (Hf := fplog_increasing i j Hij Hj).
  unfold Rdiv. apply Rmult_lt_compat_r; [now apply Rinv_0_lt_compat|lra].
Qed.

Lemma pole_imaginary (w : R) : im (pole w) = Rpower Rpole (w / PI) * sin w.
Proof. unfold pole. rewrite Cexp_imag. reflexivity. Qed.

(** Above a sample rate of 36 kHz the poles [p] lie in the open upper half
    plane. *)
Lemma p_upper_half (Fs : Z) (q : complex) :
  (36000 < Fs)%Z -> In q (p Fs) -> 0 < im q.
Proof.
  intros HFs Hq.
  assert (HF : 36000 < IZR Fs) by (apply IZR_lt; exact HFs).
  unfold p, wp in Hq. rewrite map_map in Hq.
  apply in_map_iff in Hq. destruct Hq as (f & <- & Hf).
  assert (Hr := fplog_range). rewrite Forall_forall in Hr.
  specialize (Hr f Hf). assert (Hpi := PI_RGT_0).
  rewrite pole_imaginary. apply Rmult_lt_0_compat; [apply Rpower_pos|].
  assert (Hinv : 0 < / IZR Fs) by (apply Rinv_0_lt_compat; lra).
  apply sin_gt_0.
  - unfold Rdiv. apply Rmult_lt_0_compat; [nra|exact Hinv].
  - apply (Rmult_lt_reg_r (IZR Fs)); [lra|].
    replace (2 * PI * f / IZR Fs * IZR Fs) with (2 * PI * f)
      by (field; lra).
    nra.
Qed.

Lemma NoDup_of_distinct_moduli (l : list complex) :
  (forall i j, (i < j)%nat -> (j < length l)%nat ->
               Cmod (nth i l Czero) <> Cmod (nth j l Czero)) ->
  NoDup l.
Proof.
  intros H. apply (NoDup_nth l Czero). intros i j Hi Hj E.
  destruct (Nat.lt_trichotomy i j) as [Hlt | [Heq | Hgt]]; [|exact Heq|].
  - exfalso. apply (H i j Hlt Hj). now rewrite E.
  - exfalso. apply (H j i Hgt Hi). now rewrite E.
Qed.

(** X6: above a sample rate of 36 kHz the 50 poles are 25 genuine
    conjugate pairs: no pole is real and no pole occurs twice. *)
Theorem plog_distinct (Fs : Z) :
  (36000 < Fs)%Z ->
  NoDup (plog Fs) /\ forall q, In q (plog Fs) -> im q <> 0.
Proof.
  intros HFs. assert (H0 : (0 < Fs)%Z) by lia.
  assert (Hp : NoDup (p Fs)).
  { apply NoDup_of_distinct_moduli. intros i j Hij Hj.
    rewrite p_length in Hj.
    assert (H := p_radius_decreasing Fs i j H0 Hij Hj). lra. }
  assert (Hc : NoDup (map Cconj (p Fs))).
  { apply NoDup_of_distinct_moduli. intros i j Hij Hj.
    rewrite length_map, p_length in Hj.
    replace Czero with (Cconj Czero) by (apply complex_eq; simpl; ring).
    rewrite !map_nth, !Cmod_conj.
    assert (H := p_radius_decreasing Fs i j H0 Hij Hj). lra. }
  split.
  - unfold plog. apply NoDup_app; [exact Hp | exact Hc |].
    intros q Hq Hq'. apply in_map_iff in Hq'.
    destruct Hq' as (q' & <- & Hq').
    assert (H1 := p_upper_half Fs _ HFs Hq).
    assert (H2 := p_upper_half Fs _ HFs Hq'). simpl in H1. lra.
  - intros q Hq. unfold plog in Hq. apply in_app_iff in Hq.
    destruct Hq as [Hq|Hq].
    + assert (H := p_upper_half Fs q HFs Hq). lra.
    + apply in_map_iff in Hq. destruct Hq as (q' & <- & Hq').
      assert (H := p_upper_half Fs q' HFs Hq'). simpl. lra.
Qed.

Lemma plog_distinct_witness :
  NoDup (plog 48000) /\ forall q, In q (plog 48000) -> im q <> 0.
Proof.
  apply (plog_distinct 48000). lia.
Defined.

(* ================================================================= *)
(** ** The equalizer and gain *)

Lemma Cscal_comm (a b : R) (z : complex) :
  Cscal a (Cscal b z) = Cscal b (Cscal a z).
Proof. Ceq. Qed.

Lemma map_scal_comm (a b : R) (l : list complex) :
  map (Cscal a) (map (Cscal b) l) = map (Cscal b) (map (Cscal a) l).
Proof. rewrite !map_map. apply map_ext. intros z. apply Cscal_comm. Qed.

Lemma fft_gain (c : R) (x : list complex) :
  fft (map (Cscal c) x) = (X <- fft x ;; Ok (map (Cscal c) X)).
Proof.
  destruct x as [|z x]; [reflexivity|].
  change (map (Cscal c) (z :: x)) with (Cscal c z :: map (Cscal c) x).
  cbn [fft bind]. f_equal. apply (dft_scal (-1) c (z :: x)).
Qed.

Lemma ifft_gain (c : R) (x : list complex) :
  ifft (map (Cscal c) x) = (y <- ifft x ;; Ok (map (Cscal c) y)).
Proof.
  destruct x as [|z x]; [reflexivity|].
  rewrite !ifft_ok by discriminate. cbn [bind]. f_equal.
  rewrite length_map, dft_scal. apply map_scal_comm.
Qed.

Lemma windowed_gain (c : R) (X : list complex) (n : nat)
  (window : option window_name) :
  windowed (map (Cscal c) X) n window = map (Cscal c) (windowed X n window).
Proof.
  destruct window as [name|]; [|reflexivity]. simpl.
  generalize (ifftshift (get_window name n)). intros W. revert W.
  induction X as [|z X IH]; intros [|w W]; simpl; try reflexivity.
  rewrite IH. f_equal. apply Cscal_comm.
Qed.

Lemma slice_map {A B : Type} (f : A -> B) (l : list A) (a : Z) (b : option Z) :
  slice (map f l) a b = map f (slice l a b).
Proof.
  unfold slice. rewrite length_map, skipn_map, firstn_map. reflexivity.
Qed.

Lemma set_slice_gain (c : R) (Y V : list complex) (a : Z) (b : option Z) :
  set_slice Czero (map (Cscal c) Y) a b (map (Cscal c) V) =
  (Y' <- set_slice Czero Y a b V ;; Ok (map (Cscal c) Y')).
Proof.
  unfold set_slice. rewrite !length_map.
  destruct (length V =? _)%nat.
  - cbn [bind]. now rewrite !map_app, firstn_map, skipn_map.
  - destruct (Nat.eqb_spec (length V) 1) as [E|_]; [|reflexivity].
    cbn [bind]. rewrite !map_app, firstn_map, skipn_map, map_repeat.
    destruct V as [|v V]; [discriminate|]. reflexivity.
Qed.

Lemma bind_assoc {A B C : Type} (m : result A) (k : A -> result B)
  (k' : B -> result C) :
  bind (bind m k) k' = bind m (fun a => bind (k a) k').
Proof. destruct m; reflexivity. Qed.

Lemma bind_ext {A B : Type} (m : result A) (k k' : A -> result B) :
  (forall a, k a = k' a) -> bind m k = bind m k'.
Proof. intros H. destruct m; simpl; [apply H|reflexivity]. Qed.

(** [resample] passes a gain on. *)
Lemma resample_gain (c : R) (x : list complex) (num : Z)
  (window : option window_name) :
  resample (map (Cscal c) x) num window =
  (r <- resample x num window ;; Ok (map (Cscal c) r)).
Proof.
  unfold resample. rewrite fft_gain, !bind_assoc.
  apply bind_ext. intros X. cbn [bind]. cbv zeta.
  rewrite length_map. unfold len. rewrite length_map.
  rewrite windowed_gain.
  set (W := windowed X (length x) window).
  set (N := Z.min num (Z.of_nat (length x))).
  unfold np_full. destruct (num <? 0)%Z; [reflexivity|]. cbn [bind].
  replace (repeat Czero (Z.to_nat num))
    with (map (Cscal c) (repeat Czero (Z.to_nat num))) at 1.
  2:{ rewrite map_repeat. f_equal. Ceq. }
  rewrite !slice_map, set_slice_gain, !bind_assoc.
  apply bind_ext. intros Y1. cbn [bind].
  rewrite set_slice_gain, !bind_assoc.
  apply bind_ext. intros Y2. cbn [bind].
  rewrite ifft_gain, !bind_assoc.
  apply bind_ext. intros y. cbn [bind]. f_equal. apply map_scal_comm.
Qed.

Lemma equalizer_taps_gain (c : R) (spectrum : list complex) (ntaps : Z) :
  equalizer_taps (map (Cscal c) spectrum) ntaps =
  (t <- equalizer_taps spectrum ntaps ;; Ok (map (Rmult c) t)).
Proof.
  unfold equalizer_taps. rewrite resample_gain, !bind_assoc.
  apply bind_ext. intros e. cbn [bind].
  rewrite ifft_gain, !bind_assoc.
  apply bind_ext. intros t. cbn [bind]. f_equal.
  rewrite !map_map. reflexivity.
Qed.



(* ================================================================= *)
(** ** The stages of [roomcomp] composed *)

Lemma norm_real_gain (c : R) (y : list R) :
  0 < c -> norm (real_signal (map (Rmult c) y)) = norm (real_signal y).
Proof.
  intros Hc. destruct y as [|a t]; [reflexivity|].
  rewrite !norm_real by discriminate.
  rewrite maxabs_gain by lra. rewrite map_map. f_equal.
  apply map_ext. intros v. apply xdiv_gain, Hc.
Qed.



(* ================================================================= *)
(** ** [rceps] keeps the magnitude spectrum *)

Lemma Csum_head (f : nat -> complex) (n : nat) :
  Csum f (S n) = Cplus (f O) (Csum (fun k => f (S k)) n).
Proof.
  induction n as [|n IH]; [simpl; Ceq|].
  change (Csum f (S (S n))) with (Cplus (Csum f (S n)) (f (S n))).
  rewrite IH. simpl. Ceq.
Qed.

Lemma Csum_reverse (f : nat -> complex) (n : nat) :
  Csum (fun k => f (n - 1 - k)%nat) n = Csum f n.
Proof.
  revert f. induction n as [|n IH]; intros f; [reflexivity|].
  rewrite (Csum_head f n). cbn [Csum].
  replace (S n - 1 - n)%nat with 0%nat by lia.
  rewrite <- (IH (fun k => f (S k))).
  rewrite (Csum_ext (fun k => f (S n - 1 - k)%nat)
                    (fun k => f (S (n - 1 - k)))).
  - Ceq.
  - intros i Hi. f_equal. lia.
Qed.

(** Summing over [-k] instead of [k]. *)
Lemma Csum_mirror (f : nat -> complex) (n : nat) :
  Csum (fun k => f (mirror n k)) n = Csum f n.
Proof.
  destruct n as [|n]; [reflexivity|].
  rewrite !Csum_head. unfold mirror at 1. cbn [Nat.eqb]. f_equal.
  rewrite <- (Csum_reverse (fun k => f (S k)) n).
  apply Csum_ext. intros i Hi. unfold mirror. cbn [Nat.eqb]. f_equal. lia.
Qed.

Lemma mirror_lt (n k : nat) : (k < n)%nat -> (mirror n k < n)%nat.
Proof. unfold mirror. destruct (Nat.eqb_spec k 0); lia. Qed.

Lemma Csum_conj (f : nat -> complex) (n : nat) :
  Cconj (Csum f n) = Csum (fun k => Cconj (f k)) n.
Proof.
  induction n as [|n IH]; simpl; [Ceq|]. rewrite <- IH. Ceq.
Qed.

Lemma cis_conj (t : R) : Cconj (cis t) = cis (- t).
Proof. symmetry. apply cis_opp. Qed.

(** One turn more or less changes nothing. *)
Lemma cis_turns (s : R) (j : nat) :
  s = 1 \/ s = -1 -> cis (s * (2 * PI * INR j)) = Cone.
Proof.
  intros [-> | ->].
  - replace (1 * (2 * PI * INR j)) with (2 * INR j * PI) by ring.
    apply cis_2PI_nat.
  - replace (-1 * (2 * PI * INR j)) with (- (2 * INR j * PI)) by ring.
    rewrite cis_opp, cis_2PI_nat. Ceq.
Qed.

(** The kernel at bin [-k] is the conjugate of the kernel at bin [k]. *)
Lemma kernel_mirror (s : R) (n k j : nat) :
  s = 1 \/ s = -1 -> (k < n)%nat ->
  cis (s * (2 * PI * INR (mirror n k) * INR j / INR n)) =
  Cconj (cis (s * (2 * PI * INR k * INR j / INR n))).
Proof.
  intros Hs Hk. rewrite cis_conj.
  assert (Hn : 0 < INR n) by (apply lt_0_INR; lia).
  unfold mirror. destruct (Nat.eqb_spec k 0) as [->|Hk0].
  - simpl INR. f_equal. unfold Rdiv. ring.
  - rewrite minus_INR by lia.
    replace (s * (2 * PI * (INR n - INR k) * INR j / INR n))
      with (s * (2 * PI * INR j)
            + - (s * (2 * PI * INR k * INR j / INR n)))
      by (field; lra).
    rewrite cis_plus, (cis_turns s j Hs). Ceq.
Qed.

Lemma kernel_swap (s : R) (n k j : nat) :
  s * (2 * PI * INR k * INR j / INR n) = s * (2 * PI * INR j * INR k / INR n).
Proof. unfold Rdiv. ring. Qed.

Lemma real_valued_nth (X : list complex) (k : nat) :
  real_valued X -> im (nth k X Czero) = 0.
Proof.
  intros H. destruct (Nat.lt_ge_cases k (length X)) as [Hk|Hk].
  - unfold real_valued in H. rewrite Forall_nth in H. apply H, Hk.
  - now rewrite nth_overflow.
Qed.

Lemma real_valued_RtoC (x : list R) : real_valued (map RtoC x).
Proof. apply Forall_map, Forall_forall. reflexivity. Qed.

Lemma real_valued_scal (c : R) (X : list complex) :
  real_valued X -> real_valued (map (Cscal c) X).
Proof.
  intros H. apply Forall_map. eapply Forall_impl; [|exact H].
  intros z Hz. simpl. rewrite Hz. ring.
Qed.

(** A real-valued array is the array of its real parts. *)
Lemma real_valued_re (X : list complex) :
  real_valued X -> map RtoC (map re X) = X.
Proof.
  intros H. rewrite map_map. rewrite <- (map_id X) at 2.
  apply map_ext_Forall. eapply Forall_impl; [|exact H].
  intros z Hz. apply complex_eq; simpl; [reflexivity|now rewrite Hz].
Qed.

Lemma Cconj_mult (z w : complex) :
  Cconj (Cmult z w) = Cmult (Cconj z) (Cconj w).
Proof. Ceq. Qed.

Lemma Cconj_real (z : complex) : im z = 0 -> Cconj z = z.
Proof. intros H. apply complex_eq; simpl; [reflexivity|rewrite H; ring]. Qed.

(** The transform of a real-valued array is Hermitian. *)
Lemma dft_real_hermitian (s : R) (x : list complex) :
  s = 1 \/ s = -1 -> real_valued x -> hermitian (dft s x).
Proof.
  intros Hs Hx k Hk. rewrite dft_length in *.
  rewrite !nth_dft by (try apply mirror_lt; exact Hk).
  unfold dft_coeff. rewrite Csum_conj. apply Csum_ext. intros j _.
  rewrite Cconj_mult, (Cconj_real _ (real_valued_nth x j Hx)).
  f_equal. apply kernel_mirror; assumption.
Qed.

(** The transform of a Hermitian array is real-valued. *)
Lemma dft_hermitian_real (s : R) (X : list complex) :
  s = 1 \/ s = -1 -> hermitian X -> real_valued (dft s X).
Proof.
  intros Hs HX. apply Forall_nth. intros j d Hj.
  rewrite dft_length in Hj.
  rewrite (nth_indep _ d Czero) by (now rewrite dft_length).
  rewrite nth_dft by exact Hj.
  assert (E : Cconj (dft_coeff s X j) = dft_coeff s X j).
  { unfold dft_coeff. rewrite Csum_conj.
    rewrite <- (Csum_mirror
                  (fun k => Cmult (nth k X Czero)
                              (cis (s * (2 * PI * INR j * INR k
                                         / INR (length X)))))).
    apply Csum_ext. intros k Hk.
    rewrite Cconj_mult, (HX k Hk). f_equal.
    rewrite (kernel_swap s _ j (mirror (length X) k)).
    rewrite (kernel_mirror s (length X) k j Hs Hk).
    now rewrite (kernel_swap s _ k j). }
  apply (f_equal im) in E. simpl in E. lra.
Qed.

Lemma hermitian_scal (c : R) (X : list complex) :
  hermitian X -> hermitian (map (Cscal c) X).
Proof.
  intros H k Hk. rewrite length_map in *.
  rewrite !nth_map_scal, (H k Hk). Ceq.
Qed.

(** A real-valued Hermitian array is even. *)
Lemma hermitian_real_even (X : list complex) (k : nat) :
  hermitian X -> real_valued X -> (k < length X)%nat ->
  nth (mirror (length X) k) X Czero = nth k X Czero.
Proof.
  intros HX HR Hk. rewrite (HX k Hk).
  apply Cconj_real, real_valued_nth, HR.
Qed.

Lemma Cexp_conj (z : complex) : Cexp (Cconj z) = Cconj (Cexp z).
Proof.
  destruct z as [a b]. unfold Cexp, Cconj, Cscal, cis. cbn [re im].
  rewrite cos_neg, sin_neg. f_equal. ring.
Qed.

Lemma Cmod_Cexp (z : complex) : Cmod (Cexp z) = exp (re z).
Proof. unfold Cexp. apply Cmod_scal_cis. left. apply exp_pos. Qed.

Lemma nth_map_in {A B : Type} (f : A -> B) (l : list A) (d : A) (d' : B)
  (k : nat) :
  (k < length l)%nat -> nth k (map f l) d' = f (nth k l d).
Proof.
  intros Hk. rewrite (nth_indep _ d' (f d)) by (now rewrite length_map).
  apply map_nth.
Qed.

Lemma hermitian_map (f : complex -> complex) (X : list complex) :
  (forall z, f (Cconj z) = Cconj (f z)) ->
  hermitian X -> hermitian (map f X).
Proof.
  intros Hf H k Hk. rewrite length_map in *.
  rewrite !(nth_map_in f X Czero Czero)
    by (try apply mirror_lt; exact Hk).
  now rewrite (H k Hk), Hf.
Qed.

Lemma Csum_RtoC (f : nat -> R) (n : nat) :
  Csum (fun k => RtoC (f k)) n = RtoC (Rsum f n).
Proof.
  induction n as [|n IH]; [reflexivity|]. simpl. rewrite IH. Ceq.
Qed.

Lemma re_Csum (f : nat -> complex) (n : nat) :
  re (Csum f n) = Rsum (fun k => re (f k)) n.
Proof. induction n as [|n IH]; [reflexivity|]. simpl. now rewrite IH. Qed.

Lemma Rsum_mirror (f : nat -> R) (n : nat) :
  Rsum (fun k => f (mirror n k)) n = Rsum f n.
Proof.
  assert (H := Csum_mirror (fun k => RtoC (f k)) n).
  rewrite (Csum_RtoC f n), (Csum_RtoC (fun k => f (mirror n k)) n) in H.
  exact (f_equal re H).
Qed.

Lemma Rsum_plus (f g : nat -> R) (n : nat) :
  Rsum (fun k => f k + g k) n = Rsum f n + Rsum g n.
Proof. induction n as [|n IH]; simpl; [ring|]. rewrite IH. ring. Qed.

Lemma Rsum_gain (c : R) (f : nat -> R) (n : nat) :
  Rsum (fun k => c * f k) n = c * Rsum f n.
Proof. induction n as [|n IH]; simpl; [ring|]. rewrite IH. ring. Qed.

(** Folding: against an even sequence, a window with [w[0] = 1] and
    [w[j] + w[n-j] = 2] weighs like the constant 1. *)
Lemma Rsum_fold_window (w g : nat -> R) (n : nat) :
  w O = 1 ->
  (forall j, (1 <= j < n)%nat -> w j + w (n - j)%nat = 2) ->
  (forall j, (j < n)%nat -> g (mirror n j) = g j) ->
  Rsum (fun j => w j * g j) n = Rsum g n.
Proof.
  intros H0 Hw Hg.
  assert (E1 : Rsum (fun j => w (mirror n j) * g j) n =
               Rsum (fun j => w j * g j) n).
  { rewrite <- (Rsum_mirror (fun j => w j * g j) n).
    apply Rsum_ext. intros j Hj. now rewrite (Hg j Hj). }
  assert (E2 : Rsum (fun j => w j * g j + w (mirror n j) * g j) n =
               2 * Rsum g n).
  { rewrite <- Rsum_gain. apply Rsum_ext. intros j Hj.
    unfold mirror. destruct (Nat.eqb_spec j 0) as [->|Hj0].
    - rewrite H0. ring.
    - replace (w j * g j + w (n - j)%nat * g j)
        with ((w j + w (n - j)%nat) * g j) by ring.
      rewrite Hw by lia. reflexivity. }
  rewrite Rsum_plus, E1 in E2. lra.
Qed.

(** The window of an even length folds. *)
Lemma even_window_folds (h j : nat) :
  (1 <= j < 2 * h + 2)%nat ->
  nth j (1 :: repeat 2 h ++ 1 :: repeat 0 h) 0
  + nth (2 * h + 2 - j) (1 :: repeat 2 h ++ 1 :: repeat 0 h) 0 = 2.
Proof.
  intros Hj.
  destruct (Nat.lt_trichotomy j (h + 1)) as [Hlt | [-> | Hgt]].
  - rewrite (even_window_twos h j) by lia.
    rewrite (even_window_zeros h (2 * h + 2 - j)) by lia. ring.
  - replace (2 * h + 2 - (h + 1))%nat with (h + 1)%nat by lia.
    rewrite even_window_centre. ring.
  - rewrite (even_window_zeros h j) by lia.
    rewrite (even_window_twos h (2 * h + 2 - j)) by lia. ring.
Qed.

Lemma nth_RtoC (l : list R) (j : nat) :
  nth j (map RtoC l) Czero = RtoC (nth j l 0).
Proof. change Czero with (RtoC 0). apply map_nth. Qed.

Lemma nth_map2_Rmult (a b : list R) (j : nat) :
  length a = length b ->
  nth j (map2 Rmult a b) 0 = nth j a 0 * nth j b 0.
Proof.
  revert b j. induction a as [|u a IH]; intros [|v b] j H; simpl in *;
    try discriminate.
  - destruct j; ring.
  - destruct j as [|j]; [reflexivity|]. apply IH. lia.
Qed.

(** The real part of the transform of a real signal. *)
Lemma re_dft_coeff_real (s : R) (l : list R) (k : nat) :
  re (dft_coeff s (map RtoC l) k) =
  Rsum (fun j => nth j l 0
                 * cos (s * (2 * PI * INR k * INR j / INR (length l))))
       (length l).
Proof.
  unfold dft_coeff. rewrite re_Csum, length_map. apply Rsum_ext.
  intros j _. rewrite nth_RtoC. simpl. ring.
Qed.

(** Line 66, first half: the windowed cepstrum has, in every bin, the real
    part of the transform of the cepstrum itself. *)
Lemma windowed_cepstrum_real_part (h : nat) (y : list R) (k : nat) :
  length y = (2 * h + 2)%nat ->
  (forall j, (j < length y)%nat -> nth (mirror (length y) j) y 0 = nth j y 0) ->
  (k < length y)%nat ->
  re (dft_coeff (-1)
        (map RtoC (map2 Rmult (1 :: repeat 2 h ++ 1 :: repeat 0 h) y)) k) =
  re (dft_coeff (-1) (map RtoC y) k).
Proof.
  intros Ly Hy Hk.
  set (w := 1 :: repeat 2 h ++ 1 :: repeat 0 h).
  assert (Lw : length w = length y)
    by (unfold w; rewrite even_window_length; lia).
  rewrite !re_dft_coeff_real. rewrite map2_length by exact Lw. rewrite Lw.
  set (g := fun j => nth j y 0
                     * cos (-1 * (2 * PI * INR k * INR j / INR (length y)))).
  rewrite (Rsum_ext _ (fun j => nth j w 0 * g j)).
  - apply Rsum_fold_window.
    + reflexivity.
    + intros j Hj. rewrite Ly in *. apply even_window_folds. lia.
    + intros j Hj. unfold g. rewrite (Hy j Hj). f_equal.
      rewrite (kernel_swap (-1) _ k (mirror (length y) j)).
      assert (E := kernel_mirror (-1) (length y) j k ltac:(right; reflexivity) Hj).
      apply (f_equal re) in E. simpl in E.
      rewrite E. f_equal. apply kernel_swap.
  - intros j _. unfold g. rewrite nth_map2_Rmult by exact Lw. ring.
Qed.

Lemma Cmod_pos (z : complex) : z <> Czero -> 0 < Cmod z.
Proof.
  intros Hz. destruct z as [a b]. unfold Cmod. cbn [re im].
  apply sqrt_lt_R0.
  destruct (Req_dec a 0) as [Ha|Ha], (Req_dec b 0) as [Hb|Hb]; try nra.
  subst. now elim Hz.
Qed.

Lemma nth_re (c : list complex) (j : nat) :
  nth j (map re c) 0 = re (nth j c Czero).
Proof. change 0 with (re Czero) at 1. apply map_nth. Qed.

(** What [rceps] computes on an input of even length [2h + 2]. *)
Lemma rceps_even_value (h : nat) (x : list R) :
  length x = (2 * h + 2)%nat ->
  let X := dft (-1) (map RtoC x) in
  let L := map (fun z => RtoC (ln (Cmod z))) X in
  let y := map re (map (Cscal (/ INR (length L))) (dft 1 L)) in
  let F := dft (-1) (map RtoC
             (map2 Rmult (1 :: repeat 2 h ++ 1 :: repeat 0 h) y)) in
  let E := map Cexp F in
  rceps x = Ok (y, map re (map (Cscal (/ INR (length E))) (dft 1 E))).
Proof.
  intros Lx X L y F E.
  assert (LX : length X = length x)
    by (unfold X; now rewrite dft_length, length_map).
  assert (LL : length L = length x) by (unfold L; now rewrite length_map).
  assert (Ly : length y = length x)
    by (unfold y; now rewrite !length_map, dft_length).
  unfold rceps, rceps_y.
  rewrite (fft_ok (map RtoC x))
    by (apply nonempty_length; rewrite length_map; lia).
  cbn [bind]. fold X. fold L.
  rewrite (ifft_ok L) by (apply nonempty_length; lia). cbn [bind]. fold y.
  replace (len x) with (2 * (Z.of_nat h + 1))%Z by (unfold len; lia).
  rewrite rceps_window_even_eq. cbn [bind]. unfold rceps_ym.
  rewrite np_mul_same_length by (rewrite even_window_length; lia).
  cbn [bind].
  rewrite fft_ok
    by (apply nonempty_length;
        rewrite length_map, map2_length; rewrite even_window_length; lia).
  cbn [bind]. fold F.
  rewrite ifft_ok; [reflexivity|].
  apply nonempty_length. unfold F.
  rewrite length_map, dft_length, length_map, map2_length;
    rewrite even_window_length; lia.
Qed.


(** The transform of the unit pulse is 1 in every bin. *)
Lemma dft_unit_pulse (s : R) (m k : nat) :
  dft_coeff s (map RtoC (1 :: repeat 0 m)) k = Cone.
Proof.
  unfold dft_coeff. rewrite length_map.
  rewrite (Csum_single _ _ 0%nat); [| simpl; lia |].
  - cbn [nth map INR].
    replace (s * (2 * PI * INR k * 0 / INR (length (1 :: repeat 0 m))))
      with 0 by (unfold Rdiv; ring).
    rewrite cis_0. Ceq.
  - intros j _ Hj. rewrite nth_RtoC.
    destruct j as [|j]; [lia|]. cbn [nth].
    rewrite nth_repeat. Ceq.
Qed.

Lemma fft_unit_pulse_nonzero (m : nat) :
  Forall (fun z => z <> Czero) (dft (-1) (map RtoC (1 :: repeat 0 m))).
Proof.
  unfold dft. apply Forall_map, Forall_forall. intros k _.
  rewrite dft_unit_pulse. intros E. apply (f_equal re) in E. simpl in E. lra.
Qed.

